(** * Argus backend (backend/main.py): matcher, keyword scorer, e-mail draft

    A shallow embedding of the FastAPI backend in [backend/main.py].

    - Python [str] is modelled by [string]; one [ascii] stands for one code
      point below 256 (Latin-1), which is where [lower] and [split] are
      given exactly.  String literals of this file are plain ASCII.
    - Python [float] (and numpy's [float64]) is IEEE 754 binary64, which is
      what the primitive [float] type computes with.
    - A signal is a JSON object, [dict[str, Any]] in the source: a
      [gmap string value] over a small type of JSON values.
    - The handlers raise and call out to collaborators (the embedding and
      generation services, scikit-learn): they live in an error monad over a
      [world] that holds the signal file and the log of collaborator calls. *)

From Stdlib Require Import ZArith Floats Uint63 String Ascii List Lia.
From stdpp Require Import base option list gmap strings sets sorting.

Set Warnings "-register-all".


(** ** Python strings *)

(** [str.isspace] on one code point below 256: TAB..CR, FS..US, space,
    NEL (0x85) and NBSP (0xA0). *)
Definition is_space (c : ascii) : bool :=
  let n := N_of_ascii c in
  ((9 <=? n) && (n <=? 13) || (28 <=? n) && (n <=? 32) || (n =? 133) || (n =? 160))%N.

(** [str.lower] on one code point below 256: A..Z and the Latin-1 capitals
    0xC0..0xDE (the multiplication sign 0xD7 apart) move up by 32. *)
Definition lower_char (c : ascii) : ascii :=
  let n := N_of_ascii c in
  if ((65 <=? n) && (n <=? 90) || (192 <=? n) && (n <=? 222) && negb (n =? 215))%N
  then ascii_of_N (n + 32) else c.

Fixpoint lower (s : string) : string :=
  match s with
  | EmptyString => EmptyString
  | String c s' => String (lower_char c) (lower s')
  end.

(** [str.split()] without argument: the maximal runs of non-whitespace.
    [cur] is the word being read; it is empty between words. *)
Fixpoint split_from (cur : string) (s : string) : list string :=
  match s with
  | EmptyString => if decide (cur = "") then [] else [cur]
  | String c s' =>
      if is_space c
      then (if decide (cur = "") then split_from "" s' else cur :: split_from "" s')
      else split_from (cur +:+ String c "") s'
  end.

Definition split (s : string) : list string := split_from "" s.

(** [sep.join(words)]. *)
Definition join (sep : string) (words : list string) : string :=
  String.concat sep words.

Fixpoint lstrip (s : string) : string :=
  match s with
  | EmptyString => EmptyString
  | String c s' => if is_space c then lstrip s' else s
  end.

Fixpoint rstrip (s : string) : string :=
  match s with
  | EmptyString => EmptyString
  | String c s' =>
      let r := rstrip s' in
      if is_space c && bool_decide (r = "") then "" else String c r
  end.

(** [str.strip()]. *)
Definition strip (s : string) : string := rstrip (lstrip s).

(** The characters of a string, as Python iterates over a [str]. *)
Fixpoint chars (s : string) : list string :=
  match s with
  | EmptyString => []
  | String c s' => String c "" :: chars s'
  end.

(** ** Numbers *)

(** [len(...)] as it enters a true division: an [int] turned into a float
    (exact below 2^53). *)
Definition float_of_nat (n : nat) : float :=
  PrimFloat.of_uint63 (Uint63.of_Z (Z.of_nat n)).

(** ** JSON values, signals, exceptions *)

Inductive value :=
  | VNone
  | VBool (b : bool)
  | VInt (n : Z)
  | VFloat (x : float)
  | VStr (s : string)
  | VList (l : list value)
  | VDict (d : list (string * value)).

(** A signal record: a [dict] keyed by strings. *)
Abbreviation Signal := (gmap string value).

Inductive exn :=
  | HTTPException (status_code : Z) (detail : string)
  | IndexError
  | KeyError
  | TypeError
  | External (origin : string).

(** Python truthiness, as [if x] and [not x] test it. *)
Definition truthy (v : value) : bool :=
  match v with
  | VNone => false
  | VBool b => b
  | VInt n => negb (n =? 0)%Z
  | VFloat x => negb (x =? 0)%float
  | VStr s => negb (bool_decide (s = ""))
  | VList l => negb (bool_decide (l = []))
  | VDict d => negb (bool_decide (d = []))
  end.

(** [d.get(key, default)]. *)
Definition get (d : Signal) (key : string) (default : value) : value :=
  match d !! key with
  | Some v => v
  | None => default
  end.

(** [v[0]]. *)
Definition getitem0 (v : value) : exn + value :=
  match v with
  | VList (x :: _) => inr x
  | VList [] => inl IndexError
  | VStr (String c _) => inr (VStr (String c ""))
  | VStr EmptyString => inl IndexError
  | VDict _ => inl KeyError
  | VNone | VBool _ | VInt _ | VFloat _ => inl TypeError
  end.

Fixpoint all_str (l : list value) : option (list string) :=
  match l with
  | [] => Some []
  | VStr s :: l' =>
      match all_str l' with
      | Some ss => Some (s :: ss)
      | None => None
      end
  | _ :: _ => None
  end.

(** The items [" ".join(v)] iterates over; [join] wants an iterable of
    [str] and raises [TypeError] otherwise. *)
Definition joinable (v : value) : exn + list string :=
  match v with
  | VList l =>
      match all_str l with
      | Some ss => inr ss
      | None => inl TypeError
      end
  | VStr s => inr (chars s)
  | VDict d => inr (d.*1)
  | VNone | VBool _ | VInt _ | VFloat _ => inl TypeError
  end.

(** A list of floats as a JSON value. *)
Definition embedding_value (e : list float) : value := VList (VFloat <$> e).

(** ** Configuration (module level constants read from the environment) *)

Record config := {
  GEMINI_API_KEY : string;
  SEMANTIC_WEIGHT : float;
  KEYWORD_WEIGHT : float;
  MIN_MATCH_SCORE : float
}.

(** The defaults of [os.getenv]: [float("0.7")], [float("0.3")] and
    [float("0.5")] are the binary64 numbers nearest to these decimals. *)
Definition default_config (api_key : string) : config :=
  {| GEMINI_API_KEY := api_key;
     SEMANTIC_WEIGHT := 0x1.6666666666666p-1;
     KEYWORD_WEIGHT := 0x1.3333333333333p-2;
     MIN_MATCH_SCORE := 0x1p-1 |}.

(** ** What the backend does not define itself *)

(** The collaborators and library functions [main.py] calls.  Each is a
    function of its arguments; a failure inside one is an exception. *)
Record externals := {
  (** [genai.embed_content(...)["embedding"]] *)
  embed_content : string -> exn + list float;
  (** [model.generate_content(prompt, ...).text] *)
  generate_content : string -> exn + string;
  (** [cosine_similarity([a], [b])[0][0]] of scikit-learn *)
  cosine_similarity : value -> value -> exn + float;
  (** the f-string of [generate_match_reasoning] *)
  reasoning_prompt : string -> Signal -> float -> exn + string;
  (** the f-string of [generate_email], given the contact it names *)
  email_prompt : string -> value -> Signal -> float -> exn + string;
  (** [str(v)] of a JSON value that is not a string *)
  repr : value -> string
}.

(** ** The world: the signal file and the collaborator calls made so far *)

Inductive event :=
  | EmbedContent (content : string)
  | GenerateContent (prompt : string).

Record world := {
  signals_json : option (list Signal);   (* data/signals.json; None: no file *)
  calls : list event
}.

Definition log (ev : event) (w : world) : world :=
  {| signals_json := signals_json w; calls := calls w ++ [ev] |}.

Definition M (A : Type) : Type := world -> (exn + A) * world.

#[global] Instance M_ret : MRet M := fun A (a : A) w => (inr a, w).

#[global] Instance M_bind : MBind M := fun A B (f : A -> M B) (m : M A) w =>
  match m w with
  | (inl e, w') => (inl e, w')
  | (inr a, w') => f a w'
  end.

Definition raise {A} (e : exn) : M A := fun w => (inl e, w).

Definition lift {A} (r : exn + A) : M A := fun w => (r, w).

(** One call to a collaborator: it is logged, then answers or fails. *)
Definition call {A} (ev : event) (r : exn + A) : M A := fun w => (r, log ev w).

(** The texts sent to the embedding provider, in order. *)
Fixpoint embed_calls (evs : list event) : list string :=
  match evs with
  | [] => []
  | EmbedContent t :: evs' => t :: embed_calls evs'
  | GenerateContent _ :: evs' => embed_calls evs'
  end.

(** ** Results *)

Record match_result := {
  signal : Signal;
  score : float;
  reasoning : string
}.

Record email_draft := {
  subject : string;
  to : value;
  body : string;
  preview_note : string
}.

(** ** The keyword scorer *)

Definition calculate_keyword_overlap (startup_desc : string) (signal_keywords : list string) : float :=
  let startup_words : gset string := list_to_set (split (lower startup_desc)) in
  let keyword_words : gset string := list_to_set (split (lower (join " " signal_keywords))) in
  if decide (size keyword_words = 0) then 0%float
  else
    let matches := startup_words ∩ keyword_words in
    (float_of_nat (size matches) / float_of_nat (size keyword_words))%float.

(** ** The combiner (line 143 of [match_startup]) *)

Definition combine (cfg : config) (semantic_score keyword_score : float) : float :=
  (semantic_score * SEMANTIC_WEIGHT cfg + keyword_score * KEYWORD_WEIGHT cfg)%float.

(** ** Sorting *)

(** [l.sort(key=key, reverse=True)]: descending by key and stable, an
    element going past exactly the elements of strictly greater key. *)
Fixpoint insert_desc {A} (key : A -> float) (x : A) (l : list A) : list A :=
  match l with
  | [] => [x]
  | y :: l' => if (key x <? key y)%float then y :: insert_desc key x l' else x :: l
  end.

Definition sort_desc {A} (key : A -> float) (l : list A) : list A :=
  foldr (insert_desc key) [] l.

(** ** The handlers *)

Section Backend.
Context (ext : externals).

(** [str(v)] as an f-string renders a field. *)
Definition str_of (v : value) : string :=
  match v with
  | VStr s => s
  | _ => repr ext v
  end.

Definition signal_text (signal : Signal) : string :=
  str_of (get signal "category" (VStr "")) +:+ " " +:+
  str_of (get signal "title" (VStr "")) +:+ " " +:+
  str_of (get signal "description" (VStr "")).

Definition load_signals : M (list Signal) := fun w =>
  match signals_json w with
  | None => (inr [], w)
  | Some signals => (inr signals, w)
  end.

Definition get_embedding (cfg : config) (text : string) : M (list float) :=
  if decide (GEMINI_API_KEY cfg = "")
  then raise (HTTPException 500 "GOOGLE_API_KEY missing")
  else call (EmbedContent text) (embed_content ext text).

Definition generate_match_reasoning (cfg : config) (startup_desc : string)
    (signal : Signal) (score : float) : M string :=
  if decide (GEMINI_API_KEY cfg = "") then mret ""
  else
    prompt ← lift (reasoning_prompt ext startup_desc signal score);
    text ← call (GenerateContent prompt) (generate_content ext prompt);
    mret (strip text).

(** The [for signal in signals] loop of [match_startup]; [matches] is the
    list built so far. *)
Fixpoint match_signals (cfg : config) (startup_description : string)
    (startup_embedding : list float) (signals : list Signal)
    (matches : list match_result) : M (list match_result) :=
  match signals with
  | [] => mret matches
  | signal :: signals' =>
      let signal_text := signal_text signal in
      let signal_embedding := get signal "embedding" VNone in
      '(signal, signal_embedding) ←
        (if negb (truthy signal_embedding)
         then
           e ← get_embedding cfg signal_text;
           mret (<["embedding" := embedding_value e]> signal, embedding_value e)
         else mret (signal, signal_embedding));
      semantic_score ←
        lift (cosine_similarity ext (embedding_value startup_embedding) signal_embedding);
      signal_keywords ← lift (joinable (get signal "keywords" (VList [])));
      let keyword_score :=
        calculate_keyword_overlap (lower startup_description) signal_keywords in
      let final_score := combine cfg semantic_score keyword_score in
      if (MIN_MATCH_SCORE cfg <=? final_score)%float
      then
        reasoning ← generate_match_reasoning cfg startup_description signal final_score;
        match_signals cfg startup_description startup_embedding signals'
          (matches ++ [ {| signal := signal; score := final_score; reasoning := reasoning |} ])
      else
        match_signals cfg startup_description startup_embedding signals' matches
  end.

Definition match_startup (cfg : config) (startup_description : string)
    : M (list match_result) :=
  signals ← load_signals;
  if bool_decide (signals = []) then mret []
  else
    startup_embedding ← get_embedding cfg startup_description;
    matches ← match_signals cfg startup_description startup_embedding signals [];
    mret (take 10 (sort_desc score matches)).

Definition generate_email (cfg : config) (startup_description : string)
    (signal : Signal) (match_score : float) : M email_draft :=
  if decide (GEMINI_API_KEY cfg = "")
  then raise (HTTPException 500 "GOOGLE_API_KEY missing")
  else
    contact ←
      lift (if truthy (get signal "stakeholders" VNone)
            then getitem0 (get signal "stakeholders" (VList [VStr "City Official"]))
            else inr (VStr "City Official"));
    prompt ← lift (email_prompt ext startup_description contact signal match_score);
    text ← call (GenerateContent prompt) (generate_content ext prompt);
    let email_body := strip text in
    let subject :=
      "Re: " +:+ str_of (get signal "title" (VStr "Opportunity"))
             +:+ " - Partnership Opportunity" in
    to ← lift (getitem0 (get signal "stakeholders" (VList [VStr "City Official"])));
    mret {| subject := subject;
            to := to;
            body := email_body;
            preview_note := "This is a preview. Review and customize before sending." |}.

End Backend.

(** ** What the loop computes, without the world

    The collaborators are functions of their arguments, so what one pass of
    the loop yields for a signal is a function of that signal.  These
    definitions restate the loop body of [match_startup] without the log;
    [match_signals_collect] below proves that the loop computes them. *)

#[global] Instance exn_ret : MRet (sum exn) := fun A (a : A) => inr a.

#[global] Instance exn_bind : MBind (sum exn) := fun A B (f : A -> exn + B) (r : exn + A) =>
  match r with
  | inl e => inl e
  | inr a => f a
  end.

Section Denotation.
Context (ext : externals).

(** The signal has no usable cached embedding ([not signal_embedding]). *)
Definition uncached (signal : Signal) : Prop :=
  truthy (get signal "embedding" VNone) = false.

#[global] Instance uncached_dec signal : Decision (uncached signal).
Proof. unfold uncached. apply _. Defined.

(** The answer of [get_embedding], without the log. *)
Definition embedding_answer (cfg : config) (text : string) : exn + list float :=
  if decide (GEMINI_API_KEY cfg = "")
  then inl (HTTPException 500 "GOOGLE_API_KEY missing")
  else embed_content ext text.

(** The record as the loop leaves it, with the embedding it is scored by. *)
Definition with_embedding (cfg : config) (signal : Signal) : exn + (Signal * value) :=
  let signal_embedding := get signal "embedding" VNone in
  if negb (truthy signal_embedding)
  then
    e ← embedding_answer cfg (signal_text ext signal);
    mret (<["embedding" := embedding_value e]> signal, embedding_value e)
  else mret (signal, signal_embedding).

(** The record with its embedding, and its final score. *)
Definition scored (cfg : config) (startup_description : string)
    (startup_embedding : list float) (signal : Signal) : exn + (Signal * float) :=
  '(signal, signal_embedding) ← with_embedding cfg signal;
  semantic_score ←
    cosine_similarity ext (embedding_value startup_embedding) signal_embedding;
  signal_keywords ← joinable (get signal "keywords" (VList []));
  mret (signal,
        combine cfg semantic_score
          (calculate_keyword_overlap (lower startup_description) signal_keywords)).

(** The answer of [generate_match_reasoning], without the log. *)
Definition reasoning_answer (cfg : config) (startup_desc : string)
    (signal : Signal) (score : float) : exn + string :=
  if decide (GEMINI_API_KEY cfg = "") then mret ""
  else
    prompt ← reasoning_prompt ext startup_desc signal score;
    text ← generate_content ext prompt;
    mret (strip text).

(** One pass of the loop: an exception, nothing (below the threshold), or
    the match that is appended. *)
Definition included (cfg : config) (startup_description : string)
    (startup_embedding : list float) (signal : Signal) : exn + option match_result :=
  '(signal, final_score) ← scored cfg startup_description startup_embedding signal;
  if (MIN_MATCH_SCORE cfg <=? final_score)%float
  then
    reasoning ← reasoning_answer cfg startup_description signal final_score;
    mret (Some {| signal := signal; score := final_score; reasoning := reasoning |})
  else mret None.

(** All passes: the matches appended, in the order of the signals. *)
Fixpoint collect (cfg : config) (startup_description : string)
    (startup_embedding : list float) (signals : list Signal) : exn + list match_result :=
  match signals with
  | [] => mret []
  | signal :: signals' =>
      o ← included cfg startup_description startup_embedding signal;
      ms ← collect cfg startup_description startup_embedding signals';
      mret (option_list o ++ ms)
  end.

(** The signal's final score meets the threshold. *)
Definition meets_threshold (cfg : config) (startup_description : string)
    (startup_embedding : list float) (signal : Signal) : bool :=
  match scored cfg startup_description startup_embedding signal with
  | inr (_, final_score) => (MIN_MATCH_SCORE cfg <=? final_score)%float
  | inl _ => false
  end.

End Denotation.

(** The float 1.0, as the specification of binary64 writes it. *)
Definition SF_one : spec_float := S754_finite false (2 ^ 52) (-52).

(** A float that compares with itself: any float but NaN. *)
Definition comparable (x : float) : Prop := (x =? x)%float = true.

(** The order a stable descending sort leaves two elements in, each paired
    with its place in the input: the later one has no strictly greater key,
    and of two equal keys the earlier input comes first. *)
Definition ranked {A} (key : A -> float) (a b : nat * A) : Prop :=
  (key a.2 <? key b.2)%float = false ∧
  ((key a.2 =? key b.2)%float = true → a.1 < b.1).

(** The signal collection a request sees: what [load_signals] returns. *)
Definition dataset (w : world) : list Signal :=
  match signals_json w with
  | None => []
  | Some signals => signals
  end.

(** The configuration with another threshold. *)
Definition with_threshold (cfg : config) (t : float) : config :=
  {| GEMINI_API_KEY := GEMINI_API_KEY cfg;
     SEMANTIC_WEIGHT := SEMANTIC_WEIGHT cfg;
     KEYWORD_WEIGHT := KEYWORD_WEIGHT cfg;
     MIN_MATCH_SCORE := t |}.

(** ** Stand-ins for the collaborators, and sample data

    A deterministic double of the services, to run the handlers on concrete
    requests: the embedding of a text is its length, the similarity of two
    embeddings is the first component of the second, generation echoes. *)

Definition stub : externals :=
  {| embed_content := fun text => inr [float_of_nat (String.length text)];
     generate_content := fun prompt => inr (" because " +:+ prompt +:+ " ");
     cosine_similarity := fun _ b =>
       match b with
       | VList (VFloat x :: _) => inr x
       | _ => inl (External "sklearn")
       end;
     reasoning_prompt := fun _ _ _ => inr "why";
     email_prompt := fun _ contact _ _ =>
       match contact with
       | VStr s => inr ("write to " +:+ s)
       | _ => inr "write"
       end;
     repr := fun _ => "" |}.

(** A signal with a cached one-component embedding. *)
Definition sample_signal (title : string) (x : float) (keywords : list string) : Signal :=
  {[ "title" := VStr title;
     "embedding" := VList [VFloat x];
     "keywords" := VList (VStr <$> keywords) ]}.

Definition sample_world (signals : list Signal) : world :=
  {| signals_json := Some signals; calls := [] |}.

Definition sample_signals : list Signal :=
  [ sample_signal "a" 0x1p-1 ["ai"];
    sample_signal "b" 1 [];
    sample_signal "c" 0x1p-1 ["AI"];
    sample_signal "d" 0x1p-3 [] ].

(** The sample request, what it returns and the world it leaves. *)
Definition sample_run : (exn + list match_result) * world :=
  match_startup stub (default_config "key") "We build AI" (sample_world sample_signals).

Definition sample_matches : list match_result :=
  match sample_run.1 with
  | inr r => r
  | inl _ => []
  end.

Definition sample_after : world := sample_run.2.

(** A dataset with two signals that have no usable embedding: none, and an
    empty vector. *)
Definition cold_signals : list Signal :=
  [ {[ "title" := VStr "street lights"; "keywords" := VList [VStr "drones"] ]};
    sample_signal "parking" 1 [];
    {[ "title" := VStr "water meters"; "embedding" := VList [] ]} ].

Definition cold_run : (exn + list match_result) * world :=
  match_startup stub (default_config "key") "drones" (sample_world cold_signals).

Definition cold_matches : list match_result :=
  match cold_run.1 with
  | inr r => r
  | inl _ => []
  end.

Definition cold_after : world := cold_run.2.

(** The world after a second request in the same process. *)
Definition cold_after_again : world :=
  (match_startup stub (default_config "key") "sensors" cold_after).2.

(** ** The liveness probe *)

Definition health : M (list (string * string)) := mret [("status", "ok")].

(** The prompts sent to the generation service, in order. *)
Fixpoint generate_calls (evs : list event) : list string :=
  match evs with
  | [] => []
  | GenerateContent p :: evs' => p :: generate_calls evs'
  | EmbedContent _ :: evs' => generate_calls evs'
  end.

(** The whitespace tokens of the lower-cased keywords, keyword by keyword. *)
Definition keyword_tokens (signal_keywords : list string) : list string :=
  signal_keywords ≫= (fun k => split (lower k)).

(** A text without whitespace. *)
Fixpoint no_space (s : string) : bool :=
  match s with
  | EmptyString => true
  | String c s' => negb (is_space c) && no_space s'
  end.

(** [w'] is [w] after some more collaborator calls: the same signal file,
    a longer log. *)
Definition extends (w w' : world) : Prop :=
  signals_json w' = signals_json w ∧ calls w `prefix_of` calls w'.

(** A computation that only ever adds calls to the log, whatever it
    returns or raises. *)
Definition frames {A} (m : M A) : Prop := ∀ w, extends w (m w).2.

(** ** More sample data *)

(** Twelve signals that all meet the default threshold. *)
Definition crowd_signals : list Signal :=
  (fun x => sample_signal "lot" x []) <$>
    [ 0x1.8p-1; 1; 0x1.cp-1; 0x1.ap-1; 0x1.ep-1; 0x1.8p-1;
      1; 0x1.cp-1; 0x1.ap-1; 0x1.ep-1; 0x1.8p-1; 1 ]%float.

Definition crowd_run : (exn + list match_result) * world :=
  match_startup stub (default_config "key") "We build AI" (sample_world crowd_signals).

Definition crowd_matches : list match_result :=
  match crowd_run.1 with
  | inr r => r
  | inl _ => []
  end.

Definition crowd_after : world := crowd_run.2.

(** What the stub embeds the sample description as. *)
Definition sample_embedding : list float :=
  match embed_content stub "We build AI" with
  | inr e => e
  | inl _ => []
  end.

(** All matches of the twelve signals, before the sort and the cut. *)
Definition crowd_collected : list match_result :=
  match collect stub (default_config "key") "We build AI" sample_embedding crowd_signals with
  | inr ms => ms
  | inl _ => []
  end.

(** A signal whose [keywords] is [null]. *)
Definition broken_signal : Signal :=
  {[ "title" := VStr "broken"; "embedding" := VList [VFloat 1]; "keywords" := VNone ]}.

(** A signal that names its stakeholders. *)
Definition lighting_signal : Signal :=
  {[ "title" := VStr "Smart lighting";
     "stakeholders" := VList [VStr "Public Works Director"; VStr "Mayor"] ]}.

(** * Properties *)

(** ** Floats: the order of [<?], [<=?] and [=?] *)

Ltac sf_compare :=
  unfold SFleb, SFltb, SFeqb, SFcompare;
  change (Pos.compare_cont Eq) with Pos.compare;
  repeat match goal with
         | x : spec_float |- _ => destruct x as [[]|[]| |[] ? ?]
         end;
  simpl; try congruence;
  repeat match goal with
         | |- context [(?a ?= ?b)%Z] => destruct (Z.compare_spec a b)
         | |- context [(?a ?= ?b)%positive] => destruct (Pos.compare_spec a b)
         end;
  simpl; try congruence; try lia.

Lemma SFleb_trans a b c : SFleb a b = true → SFleb b c = true → SFleb a c = true.
Proof. sf_compare. Qed.

Lemma SFltb_asym a b : SFltb a b = true → SFltb b a = false.
Proof. sf_compare. Qed.

Lemma SFltb_neq a b : SFltb a b = true → SFeqb a b = false.
Proof. sf_compare. Qed.

Lemma SFeqb_sym a b : SFeqb a b = SFeqb b a.
Proof. sf_compare. Qed.

Lemma SFleb_total a b :
  SFeqb a a = true → SFeqb b b = true → SFltb a b = false → SFleb b a = true.
Proof. sf_compare. Qed.

Lemma SFleb_not_ltb a b : SFleb b a = true → SFltb a b = false.
Proof. sf_compare. Qed.

Lemma SFleb_refl_r a b : SFleb a b = true → SFeqb b b = true.
Proof. sf_compare. Qed.

Section FloatOrder.
Local Open Scope float_scope.
Implicit Types x y z : float.

Lemma float_leb_trans x y z : (x <=? y) = true → (y <=? z) = true → (x <=? z) = true.
Proof. rewrite !FloatAxioms.leb_spec. apply SFleb_trans. Qed.

Lemma float_ltb_asym x y : (x <? y) = true → (y <? x) = false.
Proof. rewrite !FloatAxioms.ltb_spec. apply SFltb_asym. Qed.

Lemma float_ltb_neq x y : (x <? y) = true → (x =? y) = false.
Proof. rewrite FloatAxioms.ltb_spec, FloatAxioms.eqb_spec. apply SFltb_neq. Qed.

Lemma float_eqb_sym x y : (x =? y) = (y =? x).
Proof. rewrite !FloatAxioms.eqb_spec. apply SFeqb_sym. Qed.

Lemma float_ltb_irrefl x : (x <? x) = false.
Proof.
  destruct (x <? x) eqn:E; [|done].
  by rewrite (float_ltb_asym _ _ E) in E.
Qed.

Lemma float_leb_total x y :
  comparable x → comparable y → (x <? y) = false → (y <=? x) = true.
Proof. unfold comparable. rewrite !FloatAxioms.eqb_spec, FloatAxioms.ltb_spec, FloatAxioms.leb_spec. apply SFleb_total. Qed.

Lemma float_leb_not_ltb x y : (y <=? x) = true → (x <? y) = false.
Proof. rewrite FloatAxioms.leb_spec, FloatAxioms.ltb_spec. apply SFleb_not_ltb. Qed.

Lemma float_leb_comparable x y : (x <=? y) = true → comparable y.
Proof. unfold comparable. rewrite FloatAxioms.leb_spec, FloatAxioms.eqb_spec. apply SFleb_refl_r. Qed.
End FloatOrder.

(** ** Floats: the quotient of two integers

    The binary64 quotient [a / b] of two naturals [a <= b] below 2^53 lies
    between 0 and 1.  Both are exact floats with a 53-bit mantissa; the
    division computes a quotient of 53 or 54 bits at exponent
    [e1 - e2 - 53], and rounding it shifts by at most two places, the last
    one only on to the mantissa 2^52. *)

Section IntegerQuotient.
Local Open Scope Z_scope.

(** A positive number of [d] binary digits lies in [2^(d-1), 2^d). *)
Lemma digits2_pos_bounds p :
2 ^ (Zpos (digits2_pos p) - 1) <= Zpos p < 2 ^ Zpos (digits2_pos p).
Proof.
induction p as [p IH|p IH|]; simpl digits2_pos.
3: simpl; lia.
all: rewrite Pos2Z.inj_succ.
all: replace (Z.succ (Zpos (digits2_pos p)) - 1)
       with (Z.succ (Zpos (digits2_pos p) - 1)) by lia.
all: rewrite !Z.pow_succ_r by lia.
all: set (lo := 2 ^ (Zpos (digits2_pos p) - 1)) in *.
all: set (hi := 2 ^ Zpos (digits2_pos p)) in *.
all: clearbody lo hi; lia.
Qed.

Lemma digits2_pos_unique p d :
2 ^ (d - 1) <= Zpos p < 2 ^ d -> 0 < d -> Zpos (digits2_pos p) = d.
Proof.
intros [Hlo Hhi] Hd.
pose proof (digits2_pos_bounds p) as [Hlo' Hhi'].
set (k := Zpos (digits2_pos p)) in *.
assert (0 < k) by (unfold k; lia).
destruct (Z.lt_trichotomy k d) as [Hlt|[Heq|Hgt]]; [|exact Heq|].
- assert (2 ^ k <= 2 ^ (d - 1)) by (apply Z.pow_le_mono_r; lia).
  set (x := 2 ^ k) in *. set (y := 2 ^ (d - 1)) in *. clearbody x y. lia.
- assert (2 ^ d <= 2 ^ (k - 1)) by (apply Z.pow_le_mono_r; lia).
  set (x := 2 ^ d) in *. set (y := 2 ^ (k - 1)) in *. clearbody x y. lia.
Qed.

Lemma iter_xO p d : Zpos (Pos.iter xO p d) = Zpos p * 2 ^ Zpos d.
Proof.
revert p. induction d using Pos.peano_ind; intros p.
- simpl. lia.
- rewrite Pos.iter_succ, Pos2Z.inj_succ, Z.pow_succ_r by lia.
  rewrite Pos2Z.inj_xO, IHd. lia.
Qed.

Lemma Zdigits2_53 m : 2 ^ 52 <= Zpos m < 2 ^ 53 -> Zdigits2 (Zpos m) = 53.
Proof. intros H. simpl. apply digits2_pos_unique; [exact H|lia]. Qed.

Lemma binary_round_aux_exact m e :
2 ^ 52 <= Zpos m < 2 ^ 53 -> -1074 <= e <= 971 ->
binary_round_aux prec emax false (Zpos m) e loc_Exact = S754_finite false m e.
Proof.
intros Hm He. unfold binary_round_aux, shr_fexp.
rewrite (Zdigits2_53 m Hm).
replace (fexp prec emax (53 + e) - e) with 0
  by (unfold fexp, SpecFloat.emin, prec, emax; lia).
cbn [shr shr_record_of_loc loc_of_shr_record round_nearest_even shr_m].
rewrite (Zdigits2_53 m Hm).
replace (fexp prec emax (53 + e) - e) with 0
  by (unfold fexp, SpecFloat.emin, prec, emax; lia).
cbn [shr shr_record_of_loc shr_m].
replace (e <=? emax - prec) with true; [reflexivity|].
symmetry. apply Z.leb_le. unfold prec, emax. lia.
Qed.

(** The float of a positive integer below 2^53: exact, with a mantissa of
  53 bits. *)
Lemma binary_normalize_pos p :
Zpos p < 2 ^ 53 ->
exists m e,
  binary_normalize prec emax (Zpos p) 0 false = S754_finite false m e /\
  2 ^ 52 <= Zpos m < 2 ^ 53 /\ -52 <= e <= 0 /\
  Zpos m = Zpos p * 2 ^ (- e).
Proof.
intros Hp. unfold binary_normalize, binary_round.
pose proof (digits2_pos_bounds p) as Hd.
set (d := Zpos (digits2_pos p)) in *.
assert (1 <= d <= 53) as Hd53.
{ split; [unfold d; lia|].
  destruct (Z.le_gt_cases d 53) as [|Hgt]; [assumption|].
  assert (2 ^ 53 <= 2 ^ (d - 1)) by (apply Z.pow_le_mono_r; lia). lia. }
replace (fexp prec emax (d + 0)) with (d - 53)
  by (unfold fexp, SpecFloat.emin, prec, emax; lia).
unfold shl_align.
destruct (d - 53 - 0) as [|k|k] eqn:Hk; try lia.
- exists p, 0. assert (d = 53) as Hd' by lia. rewrite Hd' in Hd.
  split; [apply binary_round_aux_exact; [exact Hd|lia]|].
  repeat split; try lia; apply Hd.
- exists (Pos.iter xO p k), (d - 53).
  assert (Zpos k = 53 - d) as Hk' by lia.
  assert (2 ^ 52 <= Zpos (Pos.iter xO p k) < 2 ^ 53) as Hm.
  { rewrite iter_xO, Hk'.
    replace (2 ^ 52) with (2 ^ (d - 1) * 2 ^ (53 - d))
      by (rewrite <- Z.pow_add_r by lia; f_equal; lia).
    replace (2 ^ 53) with (2 ^ d * 2 ^ (53 - d))
      by (rewrite <- Z.pow_add_r by lia; f_equal; lia).
    assert (0 < 2 ^ (53 - d)) by (apply Z.pow_pos_nonneg; lia).
    split; [apply Z.mul_le_mono_nonneg_r; lia|apply Z.mul_lt_mono_pos_r; lia]. }
  split; [apply binary_round_aux_exact; [exact Hm|lia]|].
  split; [exact Hm|]. split; [lia|].
  rewrite iter_xO, Hk'. f_equal. f_equal. lia.
Qed.

Lemma round_nearest_even_cases x l :
round_nearest_even x l = x \/ round_nearest_even x l = x + 1.
Proof.
destruct l as [|[]]; simpl; auto.
destruct (Z.even x); auto.
Qed.

Lemma Zdigits2_54 m : 2 ^ 53 <= Zpos m < 2 ^ 54 -> Zdigits2 (Zpos m) = 54.
Proof. intros H. simpl. apply digits2_pos_unique; [exact H|lia]. Qed.

(** The second shift and the final test of [binary_round_aux]. *)
Lemma round_finish m1 e1 :
2 ^ 52 <= m1 <= 2 ^ 53 -> -1074 <= e1 <= 970 ->
exists m e,
  (let '(mrs, e'') := shr_fexp prec emax m1 e1 loc_Exact in
   match shr_m mrs with
   | Z0 => S754_zero false
   | Zpos m => if e'' <=? emax - prec then S754_finite false m e'' else S754_infinity false
   | Zneg _ => S754_nan
   end) = S754_finite false m e /\
  2 ^ 52 <= Zpos m < 2 ^ 53 /\
  ((Zpos m = m1 /\ e = e1) \/ (m1 = 2 ^ 53 /\ Zpos m = 2 ^ 52 /\ e = e1 + 1)).
Proof.
intros Hm He.
destruct (Z.eq_dec m1 (2 ^ 53)) as [->|Hne].
- exists (2 ^ 52)%positive, (e1 + 1).
  change (2 ^ 53) with 9007199254740992.
  unfold shr_fexp.
  replace (fexp prec emax (Zdigits2 9007199254740992 + e1) - e1) with 1
    by (change (Zdigits2 9007199254740992) with 54;
        unfold fexp, SpecFloat.emin, prec, emax; lia).
  cbn -[Z.leb Z.add Z.sub].
  replace (e1 + 1 <=? emax - prec) with true
    by (symmetry; apply Z.leb_le; unfold prec, emax; lia).
  split; [reflexivity|]. split; [lia|]. right. lia.
- destruct m1 as [|p|p]; try lia.
  exists p, e1. unfold shr_fexp.
  rewrite (Zdigits2_53 p) by lia.
  replace (fexp prec emax (53 + e1) - e1) with 0
    by (unfold fexp, SpecFloat.emin, prec, emax; lia).
  cbn [shr shr_record_of_loc shr_m].
  replace (e1 <=? emax - prec) with true
    by (symmetry; apply Z.leb_le; unfold prec, emax; lia).
  split; [reflexivity|]. split; [lia|]. left. lia.
Qed.

Lemma binary_round_aux_cases q e' loc :
2 ^ 52 <= q < 2 ^ 54 -> -1074 <= e' <= 900 ->
exists m e,
  binary_round_aux prec emax false q e' loc = S754_finite false m e /\
  2 ^ 52 <= Zpos m < 2 ^ 53 /\
  ((q < 2 ^ 53 /\ (e = e' \/ (e = e' + 1 /\ Zpos m = 2 ^ 52))) \/
   (2 ^ 53 <= q /\ (e = e' + 1 \/ (e = e' + 2 /\ Zpos m = 2 ^ 52)))).
Proof.
intros Hq He. unfold binary_round_aux.
destruct q as [|pq|pq]; try lia.
destruct (Z_lt_le_dec (Zpos pq) (2 ^ 53)) as [Hlt|Hge].
- (* 53 digits: no first shift *)
  unfold shr_fexp at 1.
  rewrite (Zdigits2_53 pq) by lia.
  replace (fexp prec emax (53 + e') - e') with 0
    by (unfold fexp, SpecFloat.emin, prec, emax; lia).
  cbn [shr].
  set (m1 := round_nearest_even _ _).
  assert (m1 = Zpos pq \/ m1 = Zpos pq + 1) as Hm1.
  { unfold m1.
    replace (shr_m (shr_record_of_loc (Zpos pq) loc)) with (Zpos pq)
      by (destruct loc as [|[]]; reflexivity).
    apply round_nearest_even_cases. }
  destruct (round_finish m1 e') as (m & e & Heq & Hm & Hcase); [lia|lia|].
  exists m, e. split; [exact Heq|]. split; [exact Hm|].
  left. split; [exact Hlt|]. lia.
- (* 54 digits: one first shift *)
  unfold shr_fexp at 1.
  rewrite (Zdigits2_54 pq) by lia.
  replace (fexp prec emax (54 + e') - e') with 1
    by (unfold fexp, SpecFloat.emin, prec, emax; lia).
  cbn [shr iter_pos].
  set (mrs := shr_1 (shr_record_of_loc (Zpos pq) loc)).
  assert (2 ^ 52 <= shr_m mrs < 2 ^ 53) as Hmrs.
  { unfold mrs. destruct loc as [|[]]; destruct pq as [p|p|]; cbn; lia. }
  set (m1 := round_nearest_even _ _).
  assert (m1 = shr_m mrs \/ m1 = shr_m mrs + 1) as Hm1
    by apply round_nearest_even_cases.
  destruct (round_finish m1 (e' + 1)) as (m & e & Heq & Hm & Hcase); [lia|lia|].
  exists m, e. split; [exact Heq|]. split; [exact Hm|].
  right. split; [exact Hge|]. lia.
Qed.

Lemma binary_round_aux_one e' :
-1074 <= e' <= 900 ->
binary_round_aux prec emax false (2 ^ 53) e' loc_Exact =
  S754_finite false (2 ^ 52) (e' + 1).
Proof.
intros He. unfold binary_round_aux.
change (2 ^ 53) with 9007199254740992.
unfold shr_fexp at 1.
replace (fexp prec emax (Zdigits2 9007199254740992 + e') - e') with 1
  by (change (Zdigits2 9007199254740992) with 54;
      unfold fexp, SpecFloat.emin, prec, emax; lia).
cbn -[Z.leb Z.add Z.sub shr_fexp].
unfold shr_fexp.
replace (fexp prec emax (Zdigits2 4503599627370496 + (e' + 1)) - (e' + 1)) with 0
  by (change (Zdigits2 4503599627370496) with 53; unfold fexp, SpecFloat.emin, prec, emax; lia).
cbn -[Z.leb Z.add Z.sub].
replace (e' + 1 <=? emax - prec) with true
  by (symmetry; apply Z.leb_le; unfold prec, emax; lia).
reflexivity.
Qed.


Lemma SFleb_one m e :
2 ^ 52 <= Zpos m < 2 ^ 53 ->
e < -52 \/ (e = -52 /\ Zpos m = 2 ^ 52) ->
SFleb (S754_finite false m e) SF_one = true.
Proof.
intros Hm H. unfold SFleb, SFcompare, SF_one.
destruct H as [H|[-> H]].
- apply Z.compare_lt_iff in H. rewrite H. reflexivity.
- assert (m = (2 ^ 52)%positive) as -> by lia.
  reflexivity.
Qed.

Lemma new_location_0 n : new_location n 0 = loc_Exact.
Proof. unfold new_location. destruct (Z.even n); reflexivity. Qed.

(** The quotient of two normalised floats [m1 2^e1 <= m2 2^e2] is at
  most one. *)
Lemma SFdiv_le_one m1 e1 m2 e2 :
2 ^ 52 <= Zpos m1 < 2 ^ 53 -> 2 ^ 52 <= Zpos m2 < 2 ^ 53 ->
-52 <= e1 <= 0 -> -52 <= e2 <= 0 ->
e1 < e2 \/ (e1 = e2 /\ Zpos m1 <= Zpos m2) ->
exists m e,
  SFdiv prec emax (S754_finite false m1 e1) (S754_finite false m2 e2) =
    S754_finite false m e /\
  SFleb (S754_finite false m e) SF_one = true.
Proof.
intros Hm1 Hm2 He1 He2 Hle.
unfold SFdiv, SFdiv_core_binary.
rewrite (Zdigits2_53 m1 Hm1), (Zdigits2_53 m2 Hm2).
replace (Z.min (fexp prec emax (53 + e1 - (53 + e2))) (e1 - e2)) with (e1 - e2 - 53)
  by (unfold fexp, SpecFloat.emin, prec, emax; lia).
replace (e1 - e2 - (e1 - e2 - 53)) with 53 by lia.
rewrite Z.shiftl_mul_pow2 by lia.
pose proof (Z_div_mod (Zpos m1 * 2 ^ 53) (Zpos m2) eq_refl) as Hdiv.
destruct (Z.div_eucl (Zpos m1 * 2 ^ 53) (Zpos m2)) as [q r].
destruct Hdiv as [Hqr Hr]. cbn [xorb].
set (P := 2 ^ 52) in *. set (Q := 2 ^ 53) in *.
assert (Q = 2 * P) as HQ by reflexivity.
assert (2 ^ 54 = 2 * Q) as HQ' by reflexivity.
assert (0 < P) as HP by reflexivity.
assert (P <= q < 2 * Q) as Hq.
{ split.
  - (* m2 * (q + 1) > m1 * Q >= P * Q > m2 * P *)
    assert (Zpos m2 * P < Zpos m2 * (q + 1)) by nia.
    apply Z.mul_lt_mono_pos_l in H; lia.
  - assert (Zpos m2 * q < Zpos m2 * (2 * Q)) by nia.
    apply Z.mul_lt_mono_pos_l in H; lia. }
destruct Hle as [Hlt|[-> Hle]].
- destruct (binary_round_aux_cases q (e1 - e2 - 53) (new_location (Zpos m2) r))
    as (m & e & Heq & Hm & Hcase); [rewrite HQ'; lia|lia|].
  exists m, e. split; [exact Heq|].
  apply SFleb_one; [exact Hm|]. fold P. lia.
- replace (e2 - e2 - 53) with (-53) by lia.
  assert (q <= Q) as Hq'.
  { assert (Zpos m2 * q <= Zpos m2 * Q) by nia.
    apply Z.mul_le_mono_pos_l in H; lia. }
  destruct (Z.eq_dec q Q) as [->|Hne].
  + assert (r = 0) as -> by nia.
    rewrite new_location_0. unfold Q. rewrite binary_round_aux_one by lia.
    eexists _, _. split; [reflexivity|]. reflexivity.
  + destruct (binary_round_aux_cases q (-53) (new_location (Zpos m2) r))
      as (m & e & Heq & Hm & Hcase); [rewrite HQ'; lia|lia|].
    exists m, e. split; [exact Heq|].
    apply SFleb_one; [exact Hm|]. fold P Q in Hcase |- *. lia.
Qed.


Lemma Prim2SF_float_of_nat n :
Z.of_nat n < 2 ^ 53 ->
Prim2SF (float_of_nat n) = binary_normalize prec emax (Z.of_nat n) 0 false.
Proof.
intros Hn. unfold float_of_nat.
rewrite FloatAxioms.of_uint63_spec, Uint63.of_Z_spec.
rewrite Z.mod_small; [reflexivity|].
split; [lia|]. change wB with (2 ^ 63).
assert (2 ^ 53 < 2 ^ 63) by reflexivity. lia.
Qed.

Lemma normal_order pa pb m1 e1 m2 e2 :
0 < pa <= pb ->
2 ^ 52 <= m1 < 2 ^ 53 -> 2 ^ 52 <= m2 < 2 ^ 53 ->
-52 <= e1 <= 0 -> -52 <= e2 <= 0 ->
m1 = pa * 2 ^ (- e1) -> m2 = pb * 2 ^ (- e2) ->
e1 < e2 \/ (e1 = e2 /\ m1 <= m2).
Proof.
intros Hp Hm1 Hm2 He1 He2 H1 H2.
destruct (Z.lt_trichotomy e1 e2) as [Hlt|[Heq|Hgt]]; [left; exact Hlt| |].
- right. split; [exact Heq|]. subst e2 m1 m2.
  apply Z.mul_le_mono_nonneg_r; [|lia].
  apply Z.pow_nonneg. lia.
- exfalso.
  assert (2 ^ (- e2) = 2 ^ (- e1) * 2 ^ (e1 - e2)) as Hpow
    by (rewrite <- Z.pow_add_r by lia; f_equal; lia).
  assert (2 <= 2 ^ (e1 - e2)) as H2le
    by (change 2 with (2 ^ 1) at 1; apply Z.pow_le_mono_r; lia).
  assert (0 < 2 ^ (- e1)) as Hpos by (apply Z.pow_pos_nonneg; lia).
  rewrite Hpow in H2.
  set (x := 2 ^ (- e1)) in *. set (y := 2 ^ (e1 - e2)) in *.
  set (P := 2 ^ 52) in *. assert (2 ^ 53 = 2 * P) as HQ by reflexivity.
  rewrite HQ in *. clearbody x y P.
  assert (pa * x * 2 <= pb * x * y) by nia.
  nia.
Qed.

Theorem float_of_nat_div_unit (a b : nat) :
(a <= b)%nat -> (0 < b)%nat -> Z.of_nat b < 2 ^ 53 ->
(0 <=? float_of_nat a / float_of_nat b)%float = true /\
(float_of_nat a / float_of_nat b <=? 1)%float = true.
Proof.
intros Hab Hb Hb53.
rewrite !FloatAxioms.leb_spec, FloatAxioms.div_spec. unfold SF64div.
rewrite !Prim2SF_float_of_nat by lia.
change (Prim2SF 0) with (S754_zero false).
change (Prim2SF 1) with SF_one.
destruct (Z.of_nat b) as [|pb|pb] eqn:Eb; try lia.
destruct (binary_normalize_pos pb) as (m2 & e2 & -> & Hm2 & He2 & Hv2); [lia|].
destruct (Z.of_nat a) as [|pa|pa] eqn:Ea; try lia.
- split; reflexivity.
- destruct (binary_normalize_pos pa) as (m1 & e1 & -> & Hm1 & He1 & Hv1); [lia|].
  destruct (SFdiv_le_one m1 e1 m2 e2) as (m & e & -> & Hle); try assumption.
  { apply (normal_order (Zpos pa) (Zpos pb)); try assumption; lia. }
  split; [reflexivity|exact Hle].
Qed.

End IntegerQuotient.

(** ** The sort: a permutation, descending, stable *)

Section SortDesc.
Context {A : Type} (key : A → float).

Lemma insert_desc_Permutation x l : insert_desc key x l ≡ₚ x :: l.
Proof.
  induction l as [|y l IH]; simpl; [done|].
  destruct (key x <? key y)%float; [|done].
  rewrite IH. apply Permutation_swap.
Qed.

Lemma sort_desc_Permutation l : sort_desc key l ≡ₚ l.
Proof.
  induction l as [|x l IH]; simpl; [done|].
  rewrite insert_desc_Permutation. apply Permutation_skip, IH.
Qed.

Lemma sort_desc_length l : length (sort_desc key l) = length l.
Proof. by rewrite sort_desc_Permutation. Qed.
End SortDesc.

Lemma insert_desc_fmap {A B} (f : B → A) (key : A → float) x l :
  insert_desc key (f x) (f <$> l) = f <$> insert_desc (λ b, key (f b)) x l.
Proof.
  induction l as [|y l IH]; csimpl; [done|].
  destruct (key (f x) <? key (f y))%float; csimpl; by rewrite ?IH.
Qed.

Lemma sort_desc_fmap {A B} (f : B → A) (key : A → float) l :
  sort_desc key (f <$> l) = f <$> sort_desc (λ b, key (f b)) l.
Proof.
  unfold sort_desc. induction l as [|x l IH]; csimpl; [done|].
  by rewrite IH, insert_desc_fmap.
Qed.

Section Ranked.
Context {A : Type} (key : A → float).
Implicit Types (x y : nat * A) (l : list (nat * A)).

Let tkey : nat * A → float := λ a, key a.2.

Lemma insert_desc_ranked x l :
  comparable (key x.2) →
  Forall (λ y, comparable (key y.2)) l →
  Forall (λ y, x.1 < y.1) l →
  StronglySorted (ranked key) l →
  StronglySorted (ranked key) (insert_desc tkey x l).
Proof.
  intros Hx Hcmp Htag Hsorted.
  induction Hsorted as [|y l Hsorted IH Hy]; simpl.
  { repeat constructor. }
  apply Forall_cons in Hcmp as [Hcy Hcmp].
  apply Forall_cons in Htag as [Hty Htag].
  unfold tkey at 1 2; simpl.
  destruct (key x.2 <? key y.2)%float eqn:Hlt.
  - constructor; [by apply IH|].
    rewrite insert_desc_Permutation. constructor; [|done].
    split.
    + by apply float_ltb_asym.
    + rewrite float_eqb_sym, (float_ltb_neq _ _ Hlt). done.
  - constructor; [by constructor|].
    constructor; [by split|].
    rewrite Forall_forall in Hy, Htag, Hcmp. apply Forall_forall.
    intros z Hz. destruct (Hy z Hz) as [Hyz _].
    split; [|intros _; by apply Htag].
    apply float_leb_not_ltb.
    apply float_leb_trans with (key y.2); by apply float_leb_total; auto.
Qed.

Lemma sort_desc_ranked l :
  Forall (λ y, comparable (key y.2)) l →
  StronglySorted lt (l.*1) →
  StronglySorted (ranked key) (sort_desc tkey l).
Proof.
  induction l as [|x l IH]; csimpl; intros Hcmp Htag; [constructor|].
  apply Forall_cons in Hcmp as [Hx Hcmp].
  apply StronglySorted_inv in Htag as [Htag Hlt].
  apply insert_desc_ranked; [done| | |by apply IH].
  - by rewrite sort_desc_Permutation.
  - rewrite sort_desc_Permutation. by rewrite Forall_fmap in Hlt.
Qed.
End Ranked.

(** ** The loop computes [collect]; what it leaves in the world *)

Section Loop.
Context (ext : externals).
Implicit Types (cfg : config) (w : world) (signals : list Signal).

Lemma embed_calls_app evs evs' :
  embed_calls (evs ++ evs') = embed_calls evs ++ embed_calls evs'.
Proof.
  induction evs as [|[t|p] evs IH]; simpl; [done| |done].
  by rewrite IH.
Qed.

Lemma get_embedding_run cfg text w :
  get_embedding ext cfg text w =
    (embedding_answer ext cfg text,
     if decide (GEMINI_API_KEY cfg = "") then w else log (EmbedContent text) w).
Proof.
  unfold get_embedding, embedding_answer.
  by destruct (decide (GEMINI_API_KEY cfg = "")).
Qed.

Lemma generate_match_reasoning_answer cfg desc signal x w :
  (generate_match_reasoning ext cfg desc signal x w).1 =
    reasoning_answer ext cfg desc signal x.
Proof.
  unfold generate_match_reasoning, reasoning_answer.
  destruct (decide (GEMINI_API_KEY cfg = "")); [done|].
  unfold mbind, M_bind, exn_bind, lift, call; simpl.
  destruct (reasoning_prompt ext desc signal x) as [e|prompt]; simpl; [done|].
  by destruct (generate_content ext prompt).
Qed.

Lemma generate_match_reasoning_world cfg desc signal x w :
  let w' := (generate_match_reasoning ext cfg desc signal x w).2 in
  signals_json w' = signals_json w ∧ embed_calls (calls w') = embed_calls (calls w).
Proof.
  unfold generate_match_reasoning.
  destruct (decide (GEMINI_API_KEY cfg = "")); [done|].
  unfold mbind, M_bind, lift, call; simpl.
  destruct (reasoning_prompt ext desc signal x) as [e|prompt]; simpl; [done|].
  destruct (generate_content ext prompt); simpl;
    by rewrite embed_calls_app, app_nil_r.
Qed.

(** One pass of the loop, then the rest of it. *)
Ltac loop_step :=
  cbn [match_signals collect];
  unfold included, scored, with_embedding;
  unfold mbind, M_bind, exn_bind, mret, M_ret, exn_ret, lift;
  repeat match goal with
    | |- context [get_embedding ext ?c ?t ?w] => rewrite (get_embedding_run c t w); simpl
    | |- context [negb (truthy ?v)] => destruct (truthy v) eqn:?; simpl
    | |- context [embedding_answer ext ?c ?t] =>
        destruct (embedding_answer ext c t) eqn:?; simpl
    | |- context [cosine_similarity ext ?a ?b] =>
        destruct (cosine_similarity ext a b) eqn:?; simpl
    | |- context [joinable ?v] => destruct (joinable v) eqn:?; simpl
    | |- context [(MIN_MATCH_SCORE ?c <=? ?x)%float] =>
        destruct (MIN_MATCH_SCORE c <=? x)%float eqn:?; simpl
    | |- context [generate_match_reasoning ext ?c ?d ?s ?x ?w] =>
        let H := fresh "Hans" in
        let H' := fresh "Hworld" in
        pose proof (generate_match_reasoning_answer c d s x w) as H;
        pose proof (generate_match_reasoning_world c d s x w) as H';
        destruct (generate_match_reasoning ext c d s x w) as [[?|?] ?];
        simpl in H, H'; try rewrite <- H; simpl
    end.

Lemma match_signals_collect cfg desc emb signals matches w :
  (match_signals ext cfg desc emb signals matches w).1 =
    (ms ← collect ext cfg desc emb signals; mret (matches ++ ms)).
Proof.
  revert matches w.
  induction signals as [|signal signals IH]; intros matches w.
  { simpl. unfold mret, M_ret, exn_ret, mbind, exn_bind; simpl. by rewrite app_nil_r. }
  loop_step; try done.
  all: rewrite IH; unfold mbind, exn_bind, mret, exn_ret.
  all: destruct (collect ext cfg desc emb signals); simpl; try done.
  all: by rewrite <- ?app_assoc.
Qed.

Lemma match_signals_world cfg desc emb signals matches w ms w' :
  match_signals ext cfg desc emb signals matches w = (inr ms, w') →
  signals_json w' = signals_json w ∧
  embed_calls (calls w') =
    embed_calls (calls w) ++ (signal_text ext <$> filter uncached signals).
Proof.
  revert matches w.
  induction signals as [|signal signals IH]; intros matches w.
  { intros [= _ <-]. by rewrite app_nil_r. }
  rewrite filter_cons.
  destruct (decide (uncached signal)) as [Hu|Hu]; unfold uncached in Hu.
  all: loop_step; try done.
  all: intros Hrun; apply IH in Hrun as [-> ->].
  all: unfold embedding_answer in *.
  all: destruct_and?; try (case_decide; simplify_eq/=).
  all: rewrite ?embed_calls_app in *; csimpl in *; rewrite <- ?app_assoc; csimpl.
  all: try done.
  all: split; [congruence|].
  all: match goal with H : embed_calls _ = _ |- _ => rewrite H end.
  all: by rewrite <- ?app_assoc.
Qed.
End Loop.

(** ** The match operation, as a function of the dataset *)

Section MatchStartup.
Context (ext : externals).
Implicit Types (cfg : config) (w : world) (signals : list Signal).

Lemma load_signals_run w : load_signals w = (inr (dataset w), w).
Proof. unfold load_signals, dataset. by destruct (signals_json w). Qed.

Lemma match_startup_result cfg desc w :
  (match_startup ext cfg desc w).1 =
    if bool_decide (dataset w = []) then inr []
    else
      emb ← embedding_answer ext cfg desc;
      ms ← collect ext cfg desc emb (dataset w);
      mret (take 10 (sort_desc score ms)).
Proof.
  unfold match_startup.
  unfold mbind at 1, M_bind at 1. rewrite load_signals_run.
  case_bool_decide; [done|].
  unfold mbind at 1, M_bind at 1. rewrite get_embedding_run.
  destruct (embedding_answer ext cfg desc) as [e|emb]; [done|].
  unfold mbind at 1, M_bind at 1.
  pose proof (match_signals_collect ext cfg desc emb (dataset w) []
                (if decide (GEMINI_API_KEY cfg = "") then w
                 else log (EmbedContent desc) w)) as Hc.
  destruct (match_signals _ _ _ _ _ _ _) as [[e|ms] w1]; simpl in Hc |- *.
  all: unfold mbind, exn_bind, mret, exn_ret, M_ret in Hc |- *.
  all: destruct (collect ext cfg desc emb (dataset w)); by simplify_eq/=.
Qed.

(** A successful match operation: either the dataset is empty and nothing
    happens, or the key is set, the description and the uncached signals
    are embedded, and the matches are the ten best of [collect]. *)
Lemma match_startup_inv cfg desc w r w' :
  match_startup ext cfg desc w = (inr r, w') →
  (dataset w = [] ∧ r = [] ∧ w' = w) ∨
  (dataset w ≠ [] ∧ GEMINI_API_KEY cfg ≠ "" ∧
   signals_json w' = signals_json w ∧
   embed_calls (calls w') =
     embed_calls (calls w) ++
       desc :: (signal_text ext <$> filter uncached (dataset w)) ∧
   ∃ emb ms,
     embed_content ext desc = inr emb ∧
     collect ext cfg desc emb (dataset w) = inr ms ∧
     r = take 10 (sort_desc score ms)).
Proof.
  intros Hrun.
  pose proof (match_startup_result cfg desc w) as Hres.
  rewrite Hrun in Hres. simpl in Hres.
  revert Hrun. unfold match_startup.
  unfold mbind at 1, M_bind at 1. rewrite load_signals_run.
  case_bool_decide as Hd.
  { intros [= <- <-]. by left. }
  right. split; [done|].
  unfold embedding_answer in Hres.
  destruct (decide (GEMINI_API_KEY cfg = "")) as [|Hkey]; [done|].
  split; [done|].
  revert Hrun. unfold mbind at 1, M_bind at 1.
  rewrite get_embedding_run. unfold embedding_answer.
  rewrite decide_False by done.
  unfold mbind, exn_bind, mret, exn_ret in Hres.
  destruct (embed_content ext desc) as [e|emb]; [done|].
  unfold mbind at 1, M_bind at 1.
  destruct (match_signals _ _ _ _ _ _ _) as [[e|ms] w1] eqn:Hloop; [done|].
  intros [= <- <-].
  apply match_signals_world in Hloop as [-> ->].
  rewrite decide_False by done. simpl.
  rewrite embed_calls_app, <- app_assoc. simpl.
  do 2 (split; [done|]).
  destruct (collect ext cfg desc emb (dataset w)) as [|ms'] eqn:Hc; simplify_eq/=.
  by exists emb, ms'.
Qed.
End MatchStartup.

(** ** What [collect] holds *)

Section Collect.
Context (ext : externals).
Implicit Types (cfg : config) (signals : list Signal) (m : match_result).

Ltac exn_step :=
  unfold mbind, exn_bind, mret, exn_ret in *;
  repeat match goal with
    | H : context [match ?r with inl _ => _ | inr _ => _ end] |- _ =>
        destruct r as [?|?] eqn:?; simplify_eq/=
    | H : context [let '(_, _) := ?p in _] |- _ => destruct p; simplify_eq/=
    | H : context [if ?b then _ else _] |- _ => destruct b eqn:?; simplify_eq/=
    end.

Lemma with_embedding_inv cfg s s' v :
  with_embedding ext cfg s = inr (s', v) →
  (¬ uncached s ∧ s' = s ∧ v = get s "embedding" VNone) ∨
  (uncached s ∧ ∃ e,
     embed_content ext (signal_text ext s) = inr e ∧
     s' = <["embedding" := embedding_value e]> s ∧ v = embedding_value e).
Proof.
  unfold with_embedding, uncached, embedding_answer. intros H.
  destruct (truthy (get s "embedding" VNone)) eqn:Ht; simpl in H.
  - left. exn_step. by simplify_eq/=.
  - right. split; [done|]. exn_step. eauto.
Qed.

Lemma scored_inv cfg desc emb s s' x :
  scored ext cfg desc emb s = inr (s', x) →
  ∃ v sem kws,
    with_embedding ext cfg s = inr (s', v) ∧
    cosine_similarity ext (embedding_value emb) v = inr sem ∧
    joinable (get s' "keywords" (VList [])) = inr kws ∧
    x = combine cfg sem (calculate_keyword_overlap (lower desc) kws).
Proof. unfold scored. intros H. exn_step. eauto 10. Qed.

Lemma included_inv cfg desc emb s m :
  included ext cfg desc emb s = inr (Some m) →
  scored ext cfg desc emb s = inr (signal m, score m) ∧
  (MIN_MATCH_SCORE cfg <=? score m)%float = true ∧
  reasoning_answer ext cfg desc (signal m) (score m) = inr (reasoning m).
Proof. unfold included. intros H. exn_step. eauto. Qed.

Lemma included_meets cfg desc emb s o :
  included ext cfg desc emb s = inr o →
  meets_threshold ext cfg desc emb s = bool_decide (is_Some o).
Proof. unfold included, meets_threshold. intros H. exn_step; done. Qed.

Lemma shift_tags {A} (tagged : list (nat * A)) :
  (prod_map S id <$> tagged).*1 = S <$> tagged.*1 ∧
  (prod_map S id <$> tagged).*2 = tagged.*2.
Proof.
  rewrite <- !list_fmap_compose. split; [done|].
  apply list_fmap_ext. by intros ? [? ?].
Qed.

(** The matches of [collect] with the places of their signals. *)
Lemma collect_tagged cfg desc emb signals ms :
  collect ext cfg desc emb signals = inr ms →
  ∃ tagged : list (nat * match_result),
    ms = tagged.*2 ∧
    StronglySorted lt (tagged.*1) ∧
    Forall (λ pm, ∃ s, signals !! pm.1 = Some s ∧
                       included ext cfg desc emb s = inr (Some pm.2)) tagged.
Proof.
  revert ms. induction signals as [|s signals IH]; intros ms H; simpl in H.
  { exn_step. exists []. simplify_eq/=. split_and!; constructor. }
  exn_step.
  destruct (IH _ eq_refl) as (tagged & -> & Hsorted & Hall).
  destruct (shift_tags tagged) as [Htags Hms].
  assert (StronglySorted lt (prod_map S id <$> tagged).*1) as Hsorted'.
  { rewrite Htags. apply (StronglySorted_fmap S lt lt); [|done].
    intros ? ?; lia. }
  assert (Forall (λ pm, ∃ s', (s :: signals) !! pm.1 = Some s' ∧
                    included ext cfg desc emb s' = inr (Some pm.2))
            (prod_map S id <$> tagged)) as Hall'.
  { apply Forall_fmap. eapply Forall_impl; [done|].
    intros [p m'] (s' & ? & ?); simpl in *. by exists s'. }
  match goal with H : included _ _ _ _ s = inr ?o |- _ =>
    rename H into Hs; destruct o as [m|] end.
  - exists ((0, m) :: (prod_map S id <$> tagged)). csimpl. split_and!.
    + by rewrite Hms.
    + constructor; [done|]. rewrite Htags. apply Forall_fmap, Forall_true.
      intros ?; simpl; lia.
    + constructor; [by exists s|done].
  - exists (prod_map S id <$> tagged). by rewrite Hms.
Qed.

Lemma collect_included cfg desc emb signals ms m :
  collect ext cfg desc emb signals = inr ms → m ∈ ms →
  ∃ s, s ∈ signals ∧ included ext cfg desc emb s = inr (Some m).
Proof.
  intros (tagged & -> & _ & Hall)%collect_tagged Hm.
  apply list_elem_of_fmap in Hm as ([p m'] & -> & Hin).
  rewrite Forall_forall in Hall. destruct (Hall _ Hin) as (s & Hs & ?).
  exists s. split; [|done]. by eapply list_elem_of_lookup_2.
Qed.

Lemma collect_length cfg desc emb signals ms :
  collect ext cfg desc emb signals = inr ms →
  length ms = length (filter (λ s, meets_threshold ext cfg desc emb s = true) signals).
Proof.
  revert ms. induction signals as [|s signals IH]; intros ms H; simpl in H.
  { exn_step. by simplify_eq/=. }
  exn_step.
  rewrite filter_cons, length_app, (IH _ eq_refl).
  match goal with H : included _ _ _ _ s = inr ?o |- _ =>
    pose proof (included_meets _ _ _ _ _ H) as Hm; destruct o end; simpl.
  - rewrite decide_True; [done|]. rewrite Hm. apply bool_decide_eq_true; eauto.
  - rewrite decide_False; [done|]. rewrite Hm, bool_decide_eq_true.
    by intros [? ?].
Qed.
End Collect.

(** * The claims *)

Lemma StronglySorted_lookup {A} (R : relation A) l i j x y :
  StronglySorted R l → i < j → l !! i = Some x → l !! j = Some y → R x y.
Proof.
  intros Hs. revert i j. induction Hs as [|z l Hs IH Hz]; intros i j Hij Hi Hj.
  { by rewrite lookup_nil in Hi. }
  destruct j as [|j]; [lia|]. simpl in Hj.
  destruct i as [|i]; simpl in Hi.
  - simplify_eq. rewrite Forall_forall in Hz. apply Hz.
    by eapply list_elem_of_lookup_2.
  - apply (IH i j); [lia|done..].
Qed.

Lemma StronglySorted_lt_NoDup (l : list nat) : StronglySorted lt l → NoDup l.
Proof.
  induction 1 as [|x l _ IH Hx]; constructor; [|done].
  rewrite Forall_forall in Hx. intros ?%Hx. lia.
Qed.

Section Claims.
Context (ext : externals).
Implicit Types (cfg : config) (w : world) (r : list match_result).

(** C3.  When the signal collection is empty (no file, or an empty list)
    the match operation returns the empty list and leaves the world as it
    was: no call to the embedding provider, no exception, whatever the
    description and whether or not a key is configured. *)
Theorem match_startup_empty cfg desc w :
  dataset w = [] → match_startup ext cfg desc w = (inr [], w).
Proof.
  intros Hd. unfold match_startup.
  unfold mbind at 1, M_bind at 1. rewrite load_signals_run, Hd. done.
Qed.

(** C2, amended.  Without a key and with a signal collection that is not
    empty, the match operation raises [HTTPException(500,
    "GOOGLE_API_KEY missing")] before any collaborator is called. *)
Theorem match_startup_missing_key cfg desc w :
  GEMINI_API_KEY cfg = "" → dataset w ≠ [] →
  match_startup ext cfg desc w =
    (inl (HTTPException 500 "GOOGLE_API_KEY missing"), w).
Proof.
  intros Hkey Hd. unfold match_startup.
  unfold mbind at 1, M_bind at 1. rewrite load_signals_run.
  rewrite bool_decide_eq_false_2 by done.
  unfold mbind at 1, M_bind at 1. rewrite get_embedding_run.
  unfold embedding_answer. by rewrite !decide_True.
Qed.

(** C5.  The returned matches come from distinct places [pos] of the
    signal collection; a match of strictly higher score stands before one
    of lower score, and of two matches of equal score the one whose signal
    comes first in the collection stands first. *)
Theorem match_startup_order cfg desc w r w' :
  match_startup ext cfg desc w = (inr r, w') →
  ∃ pos : list nat,
    length pos = length r ∧ NoDup pos ∧
    (∀ k p m, pos !! k = Some p → r !! k = Some m →
       ∃ s emb, dataset w !! p = Some s ∧
                embed_content ext desc = inr emb ∧
                included ext cfg desc emb s = inr (Some m)) ∧
    (∀ i j pi pj mi mj,
       pos !! i = Some pi → pos !! j = Some pj →
       r !! i = Some mi → r !! j = Some mj →
       ((score mj <? score mi)%float = true → i < j) ∧
       ((score mi =? score mj)%float = true → pi < pj → i < j)).
Proof.
  intros [(_ & -> & _)|(_ & _ & _ & _ & emb & ms & Hemb & Hc & ->)]%match_startup_inv.
  { exists []. split_and!; [done|constructor|intros ???; by rewrite lookup_nil|].
    intros ??????; by rewrite lookup_nil. }
  destruct (collect_tagged _ _ _ _ _ _ Hc) as (tagged & -> & Htags & Hall).
  rewrite (sort_desc_fmap snd score tagged), <- fmap_take.
  set (sorted := sort_desc (λ b : nat * match_result, score b.2) tagged).
  assert (StronglySorted (ranked score) sorted) as Hsorted.
  { apply sort_desc_ranked; [|done].
    eapply Forall_impl; [exact Hall|].
    intros [p m] (s & _ & (_ & Hle & _)%included_inv); simpl in *.
    by eapply float_leb_comparable. }
  assert (∀ k p m, (take 10 sorted).*1 !! k = Some p →
                   (take 10 sorted).*2 !! k = Some m →
                   sorted !! k = Some (p, m)) as Hlook.
  { intros k p m. rewrite !list_lookup_fmap.
    destruct (take 10 sorted !! k) as [[p' m']|] eqn:Hk; [|done].
    intros [= ->] [= ->]. by apply lookup_take_Some in Hk as [? _]. }
  exists ((take 10 sorted).*1). split_and!.
  - by rewrite !length_fmap.
  - rewrite fmap_take. eapply sublist_NoDup; [|apply sublist_take].
    unfold sorted. rewrite sort_desc_Permutation.
    by apply StronglySorted_lt_NoDup.
  - intros k p m Hp Hm.
    pose proof (Hlook _ _ _ Hp Hm) as Hk.
    apply list_elem_of_lookup_2 in Hk.
    unfold sorted in Hk. rewrite sort_desc_Permutation in Hk.
    rewrite Forall_forall in Hall.
    destruct (Hall _ Hk) as (s & ? & ?). by exists s, emb.
  - intros i j pi pj mi mj Hpi Hpj Hmi Hmj.
    pose proof (Hlook _ _ _ Hpi Hmi) as Hi.
    pose proof (Hlook _ _ _ Hpj Hmj) as Hj.
    destruct (lt_eq_lt_dec i j) as [[Hij| ->]|Hji].
    + done.
    + simplify_eq. split; [|lia].
      by rewrite float_ltb_irrefl.
    + destruct (StronglySorted_lookup _ _ _ _ _ _ Hsorted Hji Hj Hi) as [Hlt Heq].
      simpl in *. split.
      * by rewrite Hlt.
      * rewrite float_eqb_sym. intros ?%Heq. lia.
Qed.

(** C6.  The returned list has at most 10 matches, and at most as many as
    there are signals whose final score meets the threshold; the score of
    every returned match meets the threshold; a signal whose score is
    below it gives no match and no exception. *)
Theorem match_startup_size cfg desc w r w' :
  match_startup ext cfg desc w = (inr r, w') →
  length r ≤ 10 ∧
  (∀ emb, embed_content ext desc = inr emb →
     length r ≤ length (filter (λ s, meets_threshold ext cfg desc emb s = true)
                          (dataset w))) ∧
  Forall (λ m, (MIN_MATCH_SCORE cfg <=? score m)%float = true) r ∧
  (∀ emb s s' x,
     scored ext cfg desc emb s = inr (s', x) →
     (MIN_MATCH_SCORE cfg <=? x)%float = false →
     included ext cfg desc emb s = inr None).
Proof.
  intros Hrun. split_and!.
  - apply match_startup_inv in Hrun
      as [(_ & -> & _)|(_ & _ & _ & _ & emb & ms & _ & _ & ->)]; simpl; [lia|].
    rewrite length_take. lia.
  - intros emb Hemb. apply match_startup_inv in Hrun
      as [(_ & -> & _)|(_ & _ & _ & _ & emb' & ms & Hemb' & Hc & ->)]; simpl; [lia|].
    assert (emb' = emb) as -> by congruence.
    rewrite length_take, sort_desc_length.
    rewrite (collect_length _ _ _ _ _ _ Hc). lia.
  - apply match_startup_inv in Hrun
      as [(_ & -> & _)|(_ & _ & _ & _ & emb & ms & _ & Hc & ->)]; [constructor|].
    apply Forall_take. rewrite sort_desc_Permutation.
    apply Forall_forall. intros m Hm.
    destruct (collect_included _ _ _ _ _ _ _ Hc Hm) as (s & _ & Hs).
    by apply included_inv in Hs as (_ & ? & _).
  - intros emb s s' x Hs Hx. unfold included.
    rewrite Hs. unfold mbind, exn_bind. by rewrite Hx.
Qed.

Lemma collect_threshold_mono cfg t1 t2 desc emb signals ms1 :
  (t1 <=? t2)%float = true →
  collect ext (with_threshold cfg t1) desc emb signals = inr ms1 →
  ∃ ms2, collect ext (with_threshold cfg t2) desc emb signals = inr ms2 ∧
         length ms2 ≤ length ms1.
Proof.
  intros Ht. revert ms1.
  induction signals as [|s signals IH]; intros ms1 H1; simpl in *.
  { exists []. split; [done|]. simpl. lia. }
  unfold included in *.
  change (scored ext (with_threshold cfg t2) desc emb s)
    with (scored ext (with_threshold cfg t1) desc emb s).
  unfold mbind, exn_bind, mret, exn_ret in *.
  destruct (scored ext (with_threshold cfg t1) desc emb s) as [e|[s' x]]; [done|].
  simpl in *.
  destruct (t2 <=? x)%float eqn:H2.
  - rewrite (float_leb_trans _ _ _ Ht H2) in H1.
    change (reasoning_answer ext (with_threshold cfg t2) desc s' x)
      with (reasoning_answer ext (with_threshold cfg t1) desc s' x).
    destruct (reasoning_answer ext (with_threshold cfg t1) desc s' x); [done|].
    destruct (collect ext (with_threshold cfg t1) desc emb signals) as [|ms1']; [done|].
    destruct (IH _ eq_refl) as (ms2' & -> & Hlen).
    simplify_eq/=. eexists; split; [done|]. simpl. lia.
  - assert (∃ o ms1', collect ext (with_threshold cfg t1) desc emb signals = inr ms1' ∧
                      ms1 = option_list o ++ ms1') as (o & ms1' & Hc & ->).
    { destruct (t1 <=? x)%float.
      - destruct (reasoning_answer ext (with_threshold cfg t1) desc s' x); [done|].
        destruct (collect ext (with_threshold cfg t1) desc emb signals); [done|].
        simplify_eq/=. by eexists (Some _), _.
      - destruct (collect ext (with_threshold cfg t1) desc emb signals); [done|].
        simplify_eq/=. by eexists None, _. }
    destruct (IH _ Hc) as (ms2' & -> & Hlen).
    eexists; split; [done|]. rewrite !length_app. simpl. lia.
Qed.

(** C7.  With the description, the dataset, the collaborators and the
    weights fixed, raising the threshold from [t1] to [t2] keeps the match
    operation successful and returns no more matches. *)
Theorem match_startup_threshold_monotone cfg t1 t2 desc w r1 w1 :
  (t1 <=? t2)%float = true →
  match_startup ext (with_threshold cfg t1) desc w = (inr r1, w1) →
  ∃ r2 w2,
    match_startup ext (with_threshold cfg t2) desc w = (inr r2, w2) ∧
    length r2 ≤ length r1.
Proof.
  intros Ht H1.
  pose proof (match_startup_result ext (with_threshold cfg t1) desc w) as R1.
  pose proof (match_startup_result ext (with_threshold cfg t2) desc w) as R2.
  rewrite H1 in R1. simpl in R1.
  destruct (match_startup ext (with_threshold cfg t2) desc w) as [x2 w2].
  simpl in R2.
  case_bool_decide.
  { simplify_eq. by exists [], w2. }
  change (embedding_answer ext (with_threshold cfg t2) desc)
    with (embedding_answer ext (with_threshold cfg t1) desc) in R2.
  unfold mbind, exn_bind, mret, exn_ret in R1, R2.
  destruct (embedding_answer ext (with_threshold cfg t1) desc) as [|emb]; [done|].
  destruct (collect ext (with_threshold cfg t1) desc emb (dataset w))
    as [|ms1] eqn:Hc1; [done|].
  destruct (collect_threshold_mono _ _ _ _ _ _ _ Ht Hc1) as (ms2 & Hc2 & Hlen).
  rewrite Hc2 in R2. simplify_eq.
  eexists _, w2. split; [done|].
  rewrite !length_take, !sort_desc_length. lia.
Qed.

(** C10.  The texts sent to the embedding provider by a successful match
    operation are the description, then the text of each signal whose
    [embedding] field is not truthy, in order; every returned match carries
    its signal unchanged when that had a usable embedding, and with the
    provider's answer written into [embedding] otherwise.  A field that is
    absent, [null] or the empty vector is uncached; a non-empty vector is
    cached. *)
Theorem match_startup_embedding_cache cfg desc w r w' :
  match_startup ext cfg desc w = (inr r, w') →
  embed_calls (calls w') =
    embed_calls (calls w) ++
      (if bool_decide (dataset w = []) then []
       else desc :: (signal_text ext <$> filter uncached (dataset w))) ∧
  (∀ m, m ∈ r →
     ∃ s, s ∈ dataset w ∧
       ((¬ uncached s ∧ signal m = s) ∨
        (uncached s ∧ ∃ e,
           embed_content ext (signal_text ext s) = inr e ∧
           signal m = <["embedding" := embedding_value e]> s))) ∧
  (∀ s : Signal,
     s !! "embedding" = None ∨ s !! "embedding" = Some VNone ∨
     s !! "embedding" = Some (VList []) →
     uncached s) ∧
  (∀ (s : Signal) x l, s !! "embedding" = Some (VList (x :: l)) → ¬ uncached s).
Proof.
  intros Hrun. split_and!.
  - apply match_startup_inv in Hrun
      as [(Hd & _ & ->)|(Hd & _ & _ & -> & _)].
    + by rewrite bool_decide_eq_true_2, app_nil_r.
    + by rewrite bool_decide_eq_false_2.
  - intros m Hm. apply match_startup_inv in Hrun
      as [(_ & -> & _)|(_ & _ & _ & _ & emb & ms & _ & Hc & ->)].
    { by apply elem_of_nil in Hm. }
    apply elem_of_take in Hm as (i & Hm%list_elem_of_lookup_2 & _).
    rewrite sort_desc_Permutation in Hm.
    destruct (collect_included _ _ _ _ _ _ _ Hc Hm) as (s & Hs & Hinc).
    apply included_inv in Hinc as (Hsc & _ & _).
    apply scored_inv in Hsc as (v & _ & _ & Hwe & _ & _ & _).
    exists s. split; [done|].
    apply with_embedding_inv in Hwe as [(? & ? & _)|(? & e & ? & ? & _)]; eauto.
  - unfold uncached, get. intros s [-> |[-> | ->]]; done.
  - unfold uncached, get. intros s x l ->. done.
Qed.

(** C4 (what the code does).  Two successful match operations in a row,
    in one process and over the same signal file, send the text of every
    uncached signal to the embedding provider twice: the embedding written
    on a record during the first operation is gone in the second, which
    loads the file again. *)
Theorem match_startup_twice cfg desc1 desc2 w r1 w1 r2 w2 :
  dataset w ≠ [] →
  match_startup ext cfg desc1 w = (inr r1, w1) →
  match_startup ext cfg desc2 w1 = (inr r2, w2) →
  let texts := signal_text ext <$> filter uncached (dataset w) in
  signals_json w2 = signals_json w ∧
  embed_calls (calls w2) =
    embed_calls (calls w) ++ (desc1 :: texts) ++ (desc2 :: texts).
Proof.
  intros Hd [(? & _)|(_ & _ & Hf1 & Hc1 & _)]%match_startup_inv; [done|].
  assert (dataset w1 = dataset w) as Hd1 by (unfold dataset; by rewrite Hf1).
  intros [(? & _)|(_ & _ & Hf2 & Hc2 & _)]%match_startup_inv; [congruence|].
  simpl. split; [congruence|].
  rewrite Hc2, Hc1, Hd1, <- !app_assoc. done.
Qed.

(** C1 (what the code does).  For a signal whose [stakeholders] is the
    empty list the e-mail operation never returns a draft; with a key, a
    prompt (which does name the placeholder 'City Official') and a
    generated body, it raises [IndexError] when it builds the [to] field,
    after the generation call. *)
Theorem generate_email_empty_stakeholders cfg desc (signal : Signal) x w :
  signal !! "stakeholders" = Some (VList []) →
  (∀ draft w', generate_email ext cfg desc signal x w ≠ (inr draft, w')) ∧
  (∀ prompt text,
     GEMINI_API_KEY cfg ≠ "" →
     email_prompt ext desc (VStr "City Official") signal x = inr prompt →
     generate_content ext prompt = inr text →
     generate_email ext cfg desc signal x w =
       (inl IndexError, log (GenerateContent prompt) w)).
Proof.
  intros Hs. unfold generate_email, get. rewrite Hs. simpl.
  unfold mbind, M_bind, lift, call, raise. simpl.
  split.
  - intros draft w'. destruct (decide (GEMINI_API_KEY cfg = "")); [done|].
    destruct (email_prompt ext desc (VStr "City Official") signal x); [done|].
    by destruct (generate_content ext s).
  - intros prompt text Hkey -> ->. by rewrite decide_False.
Qed.
End Claims.

(** C8.  The keyword overlap of a description and a keyword sequence is 0.0
    when the lower-cased, joined keywords have no whitespace token, and
    otherwise the quotient of [|description_words ∩ keyword_words|] by
    [|keyword_words|], the words being the whitespace tokens of the
    lower-cased texts.  The numerator is at most the denominator, which is
    positive, and the float returned lies between 0 and 1 (for fewer than
    2^53 keyword words, where [len] converts to a float exactly). *)
Theorem calculate_keyword_overlap_spec (D : string) (K : list string) :
  let description_words : gset string := list_to_set (split (lower D)) in
  let keyword_words : gset string := list_to_set (split (lower (join " " K))) in
  (keyword_words = ∅ → calculate_keyword_overlap D K = 0%float) ∧
  (keyword_words ≠ ∅ →
     calculate_keyword_overlap D K =
       (float_of_nat (size (description_words ∩ keyword_words)) /
        float_of_nat (size keyword_words))%float ∧
     size (description_words ∩ keyword_words) ≤ size keyword_words ∧
     0 < size keyword_words) ∧
  ((Z.of_nat (size keyword_words) < 2 ^ 53)%Z →
     (0 <=? calculate_keyword_overlap D K)%float = true ∧
     (calculate_keyword_overlap D K <=? 1)%float = true).
Proof.
  intros dw kw. unfold calculate_keyword_overlap. fold dw kw.
  assert (size (dw ∩ kw) ≤ size kw) as Hsub
    by apply subseteq_size, intersection_subseteq_r.
  split_and!.
  - intros ->. by rewrite size_empty.
  - intros Hne. assert (size kw ≠ 0) as Hsz.
    { rewrite size_non_empty_iff. by intros ?%leibniz_equiv. }
    rewrite decide_False by done.
    split_and!; [done|done|lia].
  - intros Hsmall. destruct (decide (size kw = 0)) as [|Hsz]; [done|].
    apply float_of_nat_div_unit; [done|lia|done].
Qed.

(** C9.  The combiner is [semantic * SEMANTIC_WEIGHT + keyword *
    KEYWORD_WEIGHT] in binary64 arithmetic, and the score of every returned
    match is that sum of the similarity scikit-learn returned and the
    keyword overlap; nothing clamps it (with the default weights a
    similarity of -1 gives a negative score, and with weights 1 and 1 a
    score of 2).  With the default weights 0.7 and 0.3, [combine 1 1] is 1
    and [combine 0 0] is 0. *)
Theorem combine_spec :
  (∀ cfg semantic keyword,
     combine cfg semantic keyword =
       (semantic * SEMANTIC_WEIGHT cfg + keyword * KEYWORD_WEIGHT cfg)%float) ∧
  (∀ ext cfg desc w r w' m,
     match_startup ext cfg desc w = (inr r, w') → m ∈ r →
     ∃ emb v semantic keywords,
       embed_content ext desc = inr emb ∧
       cosine_similarity ext (embedding_value emb) v = inr semantic ∧
       joinable (get (signal m) "keywords" (VList [])) = inr keywords ∧
       score m =
         combine cfg semantic (calculate_keyword_overlap (lower desc) keywords)) ∧
  (∀ key, combine (default_config key) 1 1 = 1%float) ∧
  (∀ key, combine (default_config key) 0 0 = 0%float) ∧
  (∀ key, (combine (default_config key) (-1) 0 <? 0)%float = true) ∧
  combine {| GEMINI_API_KEY := ""; SEMANTIC_WEIGHT := 1; KEYWORD_WEIGHT := 1;
             MIN_MATCH_SCORE := 0 |} 1 1 = 2%float.
Proof.
  split_and!; try done.
  intros ext cfg desc w r w' m Hrun Hm.
  apply match_startup_inv in Hrun
    as [(_ & -> & _)|(_ & _ & _ & _ & emb & ms & Hemb & Hc & ->)].
  { by apply elem_of_nil in Hm. }
  apply elem_of_take in Hm as (i & Hm%list_elem_of_lookup_2 & _).
  rewrite sort_desc_Permutation in Hm.
  destruct (collect_included _ _ _ _ _ _ _ Hc Hm) as (s & _ & Hinc).
  apply included_inv in Hinc as (Hsc & _ & _).
  apply scored_inv in Hsc as (v & sem & kws & _ & ? & ? & ?).
  by exists emb, v, sem, kws.
Qed.

(** * The claims on concrete requests *)

Lemma match_startup_empty_witness :
  dataset (sample_world []) = [] ∧
  match_startup stub (default_config "") "We build AI" (sample_world []) =
    (inr [], sample_world []).
Proof.
  split; [reflexivity|].
  apply (match_startup_empty stub (default_config "") "We build AI" (sample_world [])).
  reflexivity.
Defined.

(** C2, as stated, fails: without a key and over an empty signal collection
    the match operation returns the empty list and raises nothing. *)
Lemma match_startup_missing_key_counterexample :
  ¬ (∀ ext cfg desc w,
       GEMINI_API_KEY cfg = "" →
       ∃ status detail w',
         match_startup ext cfg desc w = (inl (HTTPException status detail), w')).
Proof.
  intros H.
  destruct (H stub (default_config "") "We build AI" (sample_world []) eq_refl)
    as (status & detail & w' & Hrun).
  discriminate Hrun.
Qed.

Lemma match_startup_missing_key_witness :
  match_startup stub (default_config "") "We build AI" (sample_world sample_signals) =
    (inl (HTTPException 500 "GOOGLE_API_KEY missing"), sample_world sample_signals).
Proof.
  apply (match_startup_missing_key stub (default_config "") "We build AI"
           (sample_world sample_signals)).
  - reflexivity.
  - discriminate.
Defined.

Lemma match_startup_order_witness :
  ∃ pos : list nat,
    length pos = length sample_matches ∧ NoDup pos ∧
    (∀ k p m, pos !! k = Some p → sample_matches !! k = Some m →
       ∃ s emb, dataset (sample_world sample_signals) !! p = Some s ∧
                embed_content stub "We build AI" = inr emb ∧
                included stub (default_config "key") "We build AI" emb s = inr (Some m)) ∧
    (∀ i j pi pj mi mj,
       pos !! i = Some pi → pos !! j = Some pj →
       sample_matches !! i = Some mi → sample_matches !! j = Some mj →
       ((score mj <? score mi)%float = true → i < j) ∧
       ((score mi =? score mj)%float = true → pi < pj → i < j)).
Proof.
  apply (match_startup_order stub (default_config "key") "We build AI"
           (sample_world sample_signals) sample_matches sample_after).
  vm_compute. reflexivity.
Defined.

Lemma match_startup_size_witness :
  length sample_matches ≤ 10 ∧
  (∀ emb, embed_content stub "We build AI" = inr emb →
     length sample_matches ≤
       length (filter (λ s, meets_threshold stub (default_config "key")
                              "We build AI" emb s = true)
                 (dataset (sample_world sample_signals)))) ∧
  Forall (λ m, (MIN_MATCH_SCORE (default_config "key") <=? score m)%float = true)
    sample_matches ∧
  (∀ emb s s' x,
     scored stub (default_config "key") "We build AI" emb s = inr (s', x) →
     (MIN_MATCH_SCORE (default_config "key") <=? x)%float = false →
     included stub (default_config "key") "We build AI" emb s = inr None).
Proof.
  apply (match_startup_size stub (default_config "key") "We build AI"
           (sample_world sample_signals) sample_matches sample_after).
  vm_compute. reflexivity.
Defined.

Lemma match_startup_threshold_monotone_witness :
  ∃ r2 w2,
    match_startup stub (with_threshold (default_config "key") 0x1.5p-1)
      "We build AI" (sample_world sample_signals) = (inr r2, w2) ∧
    length r2 ≤ length sample_matches.
Proof.
  apply (match_startup_threshold_monotone stub (default_config "key")
           0x1p-1 0x1.5p-1 "We build AI" (sample_world sample_signals)
           sample_matches sample_after).
  - reflexivity.
  - vm_compute. reflexivity.
Defined.

Lemma match_startup_embedding_cache_witness :
  embed_calls (calls cold_after) =
    embed_calls (calls (sample_world cold_signals)) ++
      (if bool_decide (dataset (sample_world cold_signals) = []) then []
       else "drones" ::
              (signal_text stub <$> filter uncached (dataset (sample_world cold_signals)))) ∧
  (∀ m, m ∈ cold_matches →
     ∃ s, s ∈ dataset (sample_world cold_signals) ∧
       ((¬ uncached s ∧ signal m = s) ∨
        (uncached s ∧ ∃ e,
           embed_content stub (signal_text stub s) = inr e ∧
           signal m = <["embedding" := embedding_value e]> s))) ∧
  (∀ s : Signal,
     s !! "embedding" = None ∨ s !! "embedding" = Some VNone ∨
     s !! "embedding" = Some (VList []) →
     uncached s) ∧
  (∀ (s : Signal) x l, s !! "embedding" = Some (VList (x :: l)) → ¬ uncached s).
Proof.
  apply (match_startup_embedding_cache stub (default_config "key") "drones"
           (sample_world cold_signals) cold_matches cold_after).
  vm_compute. reflexivity.
Defined.

Lemma match_startup_twice_witness :
  signals_json cold_after_again = signals_json (sample_world cold_signals) ∧
  embed_calls (calls cold_after_again) =
    [ "drones"; " street lights "; " water meters ";
      "sensors"; " street lights "; " water meters " ].
Proof.
  destruct (match_startup_twice stub (default_config "key") "drones" "sensors"
              (sample_world cold_signals) cold_matches cold_after
              (match (match_startup stub (default_config "key") "sensors" cold_after).1 with
               | inr r => r
               | inl _ => []
               end)
              cold_after_again) as [Hfile Hcalls].
  - discriminate.
  - vm_compute. reflexivity.
  - vm_compute. reflexivity.
  - split; [exact Hfile|]. rewrite Hcalls. vm_compute. reflexivity.
Defined.

Lemma generate_email_empty_stakeholders_witness :
  generate_email stub (default_config "key") "We build AI"
    {[ "title" := VStr "Smart lighting"; "stakeholders" := VList [] ]} 0x1.8p-1
    (sample_world []) =
  (inl IndexError, log (GenerateContent "write to City Official") (sample_world [])).
Proof.
  refine (proj2 (generate_email_empty_stakeholders stub (default_config "key")
                   "We build AI"
                   {[ "title" := VStr "Smart lighting"; "stakeholders" := VList [] ]}
                   0x1.8p-1 (sample_world []) _)
            "write to City Official" " because write to City Official " _ _ _).
  - vm_compute. reflexivity.
  - discriminate.
  - vm_compute. reflexivity.
  - reflexivity.
Defined.

Lemma calculate_keyword_overlap_spec_witness :
  calculate_keyword_overlap "We build an AI procurement assistant" ["AI"; "procurement"] =
    1%float ∧
  calculate_keyword_overlap "We build an AI procurement assistant" [] = 0%float ∧
  (0 <=? calculate_keyword_overlap "We build drones" ["AI"; "drones"; "lidar"])%float = true ∧
  (calculate_keyword_overlap "We build drones" ["AI"; "drones"; "lidar"] <=? 1)%float = true.
Proof.
  pose proof (calculate_keyword_overlap_spec
                "We build an AI procurement assistant" ["AI"; "procurement"]) as (_ & H1 & _).
  pose proof (calculate_keyword_overlap_spec
                "We build an AI procurement assistant" []) as (H0 & _ & _).
  pose proof (calculate_keyword_overlap_spec
                "We build drones" ["AI"; "drones"; "lidar"]) as (_ & _ & H01).
  split_and!.
  - destruct H1 as [-> _]; [vm_compute; discriminate|]. vm_compute. reflexivity.
  - apply H0. vm_compute. reflexivity.
  - apply H01. vm_compute. reflexivity.
  - apply H01. vm_compute. reflexivity.
Defined.

Lemma combine_spec_witness :
  combine (default_config "key") 1 1 = 1%float ∧
  Forall (λ m,
            ∃ emb v semantic keywords,
              embed_content stub "We build AI" = inr emb ∧
              cosine_similarity stub (embedding_value emb) v = inr semantic ∧
              joinable (get (signal m) "keywords" (VList [])) = inr keywords ∧
              score m =
                combine (default_config "key") semantic
                  (calculate_keyword_overlap (lower "We build AI") keywords))
    sample_matches.
Proof.
  split; [apply combine_spec|].
  apply Forall_forall. intros m.
  apply (proj1 (proj2 combine_spec) stub (default_config "key") "We build AI"
           (sample_world sample_signals) sample_matches sample_after m).
  vm_compute. reflexivity.
Defined.

(** * Further properties of the code *)

(** ** Strings *)

Lemma lower_char_idemp c : lower_char (lower_char c) = lower_char c.
Proof. destruct c as [[] [] [] [] [] [] [] []]; reflexivity. Qed.

Lemma lower_idemp s : lower (lower s) = lower s.
Proof. induction s as [|c s IH]; simpl; [done|]. by rewrite lower_char_idemp, IH. Qed.

Lemma lower_app s t : lower (s +:+ t) = lower s +:+ lower t.
Proof. induction s as [|c s IH]; simpl; [done|]. by rewrite IH. Qed.

Lemma lower_join ks : lower (join " " ks) = join " " (lower <$> ks).
Proof.
  unfold join. induction ks as [|k ks IH]; [done|].
  destruct ks as [|k' ks]; [done|].
  change (lower (k +:+ " " +:+ String.concat " " (k' :: ks)) =
          lower k +:+ " " +:+ String.concat " " (lower <$> k' :: ks)).
  by rewrite !lower_app, IH.
Qed.

Lemma split_from_space cur s t :
  split_from cur (s +:+ String " " t) = split_from cur s ++ split_from "" t.
Proof.
  revert cur. induction s as [|c s IH]; intros cur; simpl.
  { by destruct (decide (cur = "")). }
  destruct (is_space c); [|by rewrite IH].
  destruct (decide (cur = "")); by rewrite IH.
Qed.

(** The tokens of the joined keywords are the tokens of each keyword. *)
Lemma split_join ks : split (join " " ks) = ks ≫= split.
Proof.
  unfold join. induction ks as [|k ks IH]; [done|].
  destruct ks as [|k' ks].
  { simpl. by rewrite app_nil_r. }
  change (split (k +:+ String " " (String.concat " " (k' :: ks))) =
          split k ++ ((k' :: ks) ≫= split)).
  unfold split at 1. rewrite split_from_space. by rewrite <- IH.
Qed.

Lemma lstrip_idemp s : lstrip (lstrip s) = lstrip s.
Proof.
  induction s as [|c s IH]; simpl; [done|].
  destruct (is_space c) eqn:Hc; [done|]. simpl. by rewrite Hc.
Qed.

Lemma rstrip_idemp s : rstrip (rstrip s) = rstrip s.
Proof.
  induction s as [|c s IH]; simpl; [done|].
  destruct (is_space c && bool_decide (rstrip s = "")) eqn:Hc; [done|].
  simpl. by rewrite IH, Hc.
Qed.

Lemma lstrip_rstrip s : lstrip s = s → lstrip (rstrip s) = rstrip s.
Proof.
  destruct s as [|c s]; simpl; [done|].
  destruct (is_space c) eqn:Hc.
  - intros H. exfalso. clear -H.
    assert (String.length (lstrip s) ≤ String.length s) as Hlen.
    { clear. induction s as [|c s IH]; simpl; [lia|].
      destruct (is_space c); simpl; lia. }
    rewrite H in Hlen. simpl in Hlen. lia.
  - intros _. simpl. by rewrite Hc.
Qed.

(** [strip] leaves no whitespace at either end. *)
Lemma strip_stripped s : lstrip (strip s) = strip s ∧ rstrip (strip s) = strip s.
Proof.
  unfold strip. split; [|apply rstrip_idemp].
  apply lstrip_rstrip, lstrip_idemp.
Qed.

Lemma no_space_snoc cur c :
  no_space cur = true → is_space c = false → no_space (cur +:+ String c "") = true.
Proof.
  induction cur as [|c' cur IH]; simpl; intros H Hc.
  - by rewrite Hc.
  - apply andb_true_iff in H as [-> H]. by apply IH.
Qed.

Lemma append_cons c s t : String c s +:+ t = String c (s +:+ t).
Proof. done. Qed.

Lemma append_empty_r s : s +:+ "" = s.
Proof. induction s as [|c s IH]; [done|]. by rewrite append_cons, IH. Qed.

Lemma append_snoc s c t : (s +:+ String c "") +:+ t = s +:+ String c t.
Proof. induction s as [|c' s IH]; [done|]. by rewrite !append_cons, IH. Qed.

Lemma split_from_words cur s :
  no_space cur = true →
  Forall (λ t, t ≠ "" ∧ no_space t = true) (split_from cur s).
Proof.
  revert cur. induction s as [|c s IH]; intros cur Hcur; simpl.
  { destruct (decide (cur = "")); repeat constructor; done. }
  destruct (is_space c) eqn:Hc.
  - destruct (decide (cur = "")); [by apply IH|].
    constructor; [done|by apply IH].
  - by apply IH, no_space_snoc.
Qed.

Lemma split_from_word cur t :
  no_space t = true →
  split_from cur t = if decide (cur +:+ t = "") then [] else [cur +:+ t].
Proof.
  revert cur. induction t as [|c t IH]; intros cur Ht; simpl.
  { by rewrite append_empty_r. }
  apply andb_true_iff in Ht as [Hc Ht]. apply negb_true_iff in Hc. rewrite Hc.
  by rewrite IH, append_snoc.
Qed.

Lemma split_from_lowered cur s :
  lower cur = cur → Forall (λ t, lower t = t) (split_from cur (lower s)).
Proof.
  revert cur. induction s as [|c s IH]; intros cur Hcur; simpl.
  { destruct (decide (cur = "")); repeat constructor; done. }
  destruct (is_space (lower_char c)).
  - destruct (decide (cur = "")); [by apply IH|].
    constructor; [done|by apply IH].
  - apply IH. rewrite lower_app, Hcur. simpl. by rewrite lower_char_idemp.
Qed.

(** A token of a lower-cased text is its own and only token. *)
Lemma token_tokens s t : t ∈ split (lower s) → split (lower t) = [t].
Proof.
  intros Ht.
  pose proof (split_from_words "" (lower s) eq_refl) as Hw.
  pose proof (split_from_lowered "" s eq_refl) as Hl.
  rewrite Forall_forall in Hw, Hl.
  destruct (Hw t Ht) as [Hne Hns]. rewrite (Hl t Ht).
  unfold split. rewrite split_from_word by done. simpl.
  by rewrite decide_False.
Qed.

(** ** The keyword scorer *)

Lemma keyword_words_tokens (K : list string) :
  split (lower (join " " K)) = keyword_tokens K.
Proof.
  unfold keyword_tokens. by rewrite lower_join, split_join, list_fmap_bind.
Qed.

Lemma keyword_tokens_app K K' :
  keyword_tokens (K ++ K') = keyword_tokens K ++ keyword_tokens K'.
Proof. apply bind_app. Qed.

Lemma keyword_tokens_idemp K : keyword_tokens (keyword_tokens K) = keyword_tokens K.
Proof.
  unfold keyword_tokens. induction K as [|k K IH]; [done|].
  csimpl. rewrite bind_app, IH. f_equal.
  assert (∀ l : list string,
            Forall (λ t, split (lower t) = [t]) l →
            l ≫= (λ t, split (lower t)) = l) as Hid.
  { induction 1 as [|t l Ht _ IHl]; csimpl; [done|]. by rewrite Ht, IHl. }
  apply Hid, Forall_forall. intros t. apply token_tokens.
Qed.

(** The score is a function of the two sets of tokens. *)
Lemma calculate_keyword_overlap_sets D D' K K' :
  (list_to_set (split (lower D)) : gset string) = list_to_set (split (lower D')) →
  (list_to_set (keyword_tokens K) : gset string) = list_to_set (keyword_tokens K') →
  calculate_keyword_overlap D K = calculate_keyword_overlap D' K'.
Proof.
  intros HD HK. unfold calculate_keyword_overlap.
  by rewrite !keyword_words_tokens, HD, HK.
Qed.

(** X1.  The keyword score does not depend on the order of the keywords,
    on a keyword being repeated, or on how the words are grouped into
    keywords: a permutation of the keywords, the keywords listed twice, and
    the keywords with some of them replaced by their lower-cased words,
    score the same. *)
Theorem calculate_keyword_overlap_order (D : string) (K K' : list string) :
  (K ≡ₚ K' → calculate_keyword_overlap D K = calculate_keyword_overlap D K') ∧
  calculate_keyword_overlap D (K ++ K) = calculate_keyword_overlap D K ∧
  calculate_keyword_overlap D (K ++ K') =
    calculate_keyword_overlap D (keyword_tokens K ++ K').
Proof.
  split_and!.
  - intros HK. apply calculate_keyword_overlap_sets; [done|].
    unfold keyword_tokens. by rewrite HK.
  - apply calculate_keyword_overlap_sets; [done|].
    rewrite keyword_tokens_app, list_to_set_app_L.
    apply union_idemp_L.
  - apply calculate_keyword_overlap_sets; [done|].
    by rewrite !keyword_tokens_app, keyword_tokens_idemp.
Qed.

(** X2.  The keyword score is case-insensitive on both sides: lower-casing
    the description (as [match_startup] does before the call) or the
    keywords changes nothing. *)
Theorem calculate_keyword_overlap_case (D : string) (K : list string) :
  calculate_keyword_overlap (lower D) K = calculate_keyword_overlap D K ∧
  calculate_keyword_overlap D (lower <$> K) = calculate_keyword_overlap D K ∧
  calculate_keyword_overlap (lower D) (lower <$> K) = calculate_keyword_overlap D K.
Proof.
  assert (keyword_tokens (lower <$> K) = keyword_tokens K) as HK.
  { unfold keyword_tokens. rewrite list_fmap_bind.
    apply list_bind_ext; [|done]. intros k. simpl. by rewrite lower_idemp. }
  split_and!; apply calculate_keyword_overlap_sets;
    by rewrite ?lower_idemp, ?HK.
Qed.

Section ExactQuotients.
Local Open Scope Z_scope.

Lemma SFdiv_self m e :
  2 ^ 52 <= Zpos m < 2 ^ 53 ->
  SFdiv prec emax (S754_finite false m e) (S754_finite false m e) = SF_one.
Proof.
  intros Hm. unfold SFdiv, SFdiv_core_binary.
  rewrite (Zdigits2_53 m Hm).
  replace (Z.min (fexp prec emax (53 + e - (53 + e))) (e - e)) with (-53)
    by (unfold fexp, SpecFloat.emin, prec, emax; lia).
  replace (e - e - -53) with 53 by lia.
  rewrite Z.shiftl_mul_pow2 by lia.
  pose proof (Z_div_mod (Zpos m * 2 ^ 53) (Zpos m) eq_refl) as Hdiv.
  destruct (Z.div_eucl (Zpos m * 2 ^ 53) (Zpos m)) as [q r].
  destruct Hdiv as [Hqr Hr]. cbn [xorb].
  set (Q := 2 ^ 53) in *.
  assert (q = Q) as -> by (clearbody Q; nia).
  assert (r = 0) as -> by lia.
  rewrite new_location_0. unfold Q.
  by rewrite binary_round_aux_one by lia.
Qed.

Lemma float_of_nat_div_self (n : nat) :
  (0 < n)%nat -> Z.of_nat n < 2 ^ 53 ->
  (float_of_nat n / float_of_nat n)%float = 1%float.
Proof.
  intros Hn Hn53.
  rewrite <- (SF2Prim_Prim2SF (float_of_nat n / float_of_nat n)).
  rewrite FloatAxioms.div_spec. unfold SF64div.
  rewrite !Prim2SF_float_of_nat by lia.
  destruct (Z.of_nat n) as [|p|p] eqn:E; try lia.
  destruct (binary_normalize_pos p) as (m & e & -> & Hm & _); [lia|].
  by rewrite SFdiv_self.
Qed.

Lemma float_of_nat_div_zero (n : nat) :
  (0 < n)%nat -> Z.of_nat n < 2 ^ 53 ->
  (float_of_nat 0 / float_of_nat n)%float = 0%float.
Proof.
  intros Hn Hn53.
  rewrite <- (SF2Prim_Prim2SF (float_of_nat 0 / float_of_nat n)).
  rewrite FloatAxioms.div_spec. unfold SF64div.
  rewrite (Prim2SF_float_of_nat n) by lia.
  destruct (Z.of_nat n) as [|p|p] eqn:E; try lia.
  destruct (binary_normalize_pos p) as (m & e & -> & _); [lia|].
  done.
Qed.
End ExactQuotients.

Lemma size_list_to_set_le (l : list string) :
  size (list_to_set l : gset string) ≤ length l.
Proof.
  induction l as [|x l IH]; csimpl.
  { change (size (∅ : gset string) ≤ 0). by rewrite size_empty. }
  rewrite size_union_alt, size_singleton.
  assert (size (list_to_set l ∖ {[x]} : gset string) ≤ size (list_to_set l : gset string))
    by (apply subseteq_size; set_solver).
  lia.
Qed.

(** X3.  When the keywords have words and every one of them occurs among
    the words of the description, the keyword score is exactly 1.0; when
    none of them occurs, it is exactly 0.0 (for fewer than 2^53 keyword
    words). *)
Theorem calculate_keyword_overlap_extremes (D : string) (K : list string) :
  keyword_tokens K ≠ [] →
  (Z.of_nat (length (keyword_tokens K)) < 2 ^ 53)%Z →
  ((∀ t, t ∈ keyword_tokens K → t ∈ split (lower D)) →
     calculate_keyword_overlap D K = 1%float) ∧
  ((∀ t, t ∈ keyword_tokens K → t ∉ split (lower D)) →
     calculate_keyword_overlap D K = 0%float).
Proof.
  intros Hne Hsmall. unfold calculate_keyword_overlap.
  rewrite keyword_words_tokens.
  set (dw := list_to_set (split (lower D)) : gset string).
  set (kw := list_to_set (keyword_tokens K) : gset string).
  assert (size kw ≤ length (keyword_tokens K)) as Hsz by apply size_list_to_set_le.
  assert (size kw ≠ 0) as Hpos.
  { rewrite size_non_empty_iff. destruct (keyword_tokens K) as [|t l] eqn:E; [done|].
    intros Hempty. assert (t ∈ kw) as Ht by (unfold kw; set_solver).
    rewrite Hempty in Ht. set_solver. }
  rewrite decide_False by done.
  split.
  - intros Hall.
    assert (dw ∩ kw = kw) as -> by (unfold dw, kw; set_solver).
    apply float_of_nat_div_self; lia.
  - intros Hnone.
    assert (dw ∩ kw = ∅) as -> by (unfold dw, kw; set_solver).
    rewrite size_empty. apply float_of_nat_div_zero; lia.
Qed.

(** ** What the handlers leave in the world *)

Lemma extends_refl w : extends w w.
Proof. by split. Qed.

Lemma extends_trans w1 w2 w3 : extends w1 w2 → extends w2 w3 → extends w1 w3.
Proof. intros [? ?] [? ?]. split; [congruence|by etrans]. Qed.

Lemma frames_ret {A} (a : A) : frames (mret a).
Proof. intros w. apply extends_refl. Qed.

Lemma frames_raise {A} e : frames (raise (A:=A) e).
Proof. intros w. apply extends_refl. Qed.

Lemma frames_lift {A} (r : exn + A) : frames (lift r).
Proof. intros w. apply extends_refl. Qed.

Lemma frames_call {A} ev (r : exn + A) : frames (call ev r).
Proof. intros w. split; [done|]. by apply prefix_app_r. Qed.

Lemma frames_bind {A B} (m : M A) (f : A → M B) :
  frames m → (∀ a, frames (f a)) → frames (m ≫= f).
Proof.
  intros Hm Hf w. unfold mbind, M_bind. specialize (Hm w).
  destruct (m w) as [[e|a] w1]; [done|].
  eapply extends_trans; [exact Hm|apply Hf].
Qed.

Section Frames.
Context (ext : externals).

Lemma get_embedding_frames cfg text : frames (get_embedding ext cfg text).
Proof.
  unfold get_embedding. case_decide; [apply frames_raise|apply frames_call].
Qed.

Lemma generate_match_reasoning_frames cfg desc s x :
  frames (generate_match_reasoning ext cfg desc s x).
Proof.
  unfold generate_match_reasoning. case_decide; [apply frames_ret|].
  apply frames_bind; [apply frames_lift|]. intros prompt.
  apply frames_bind; [apply frames_call|]. intros text. apply frames_ret.
Qed.

Lemma match_signals_frames cfg desc emb signals matches :
  frames (match_signals ext cfg desc emb signals matches).
Proof.
  revert matches. induction signals as [|s signals IH]; intros matches.
  { apply frames_ret. }
  cbn [match_signals]. apply frames_bind.
  { destruct (negb _); [|apply frames_ret].
    apply frames_bind; [apply get_embedding_frames|]. intros e. apply frames_ret. }
  intros [s' v]. apply frames_bind; [apply frames_lift|]. intros sem.
  apply frames_bind; [apply frames_lift|]. intros kws.
  destruct (_ <=? _)%float; [|apply IH].
  apply frames_bind; [apply generate_match_reasoning_frames|]. intros r. apply IH.
Qed.

(** X4.  Whatever it returns or raises, the match operation never changes
    the signal file and only adds calls to the log of collaborator
    calls. *)
Theorem match_startup_frames cfg desc w :
  let w' := (match_startup ext cfg desc w).2 in
  signals_json w' = signals_json w ∧ calls w `prefix_of` calls w'.
Proof.
  revert w. change (frames (match_startup ext cfg desc)).
  unfold match_startup. apply frames_bind.
  { intros w. unfold load_signals. destruct (signals_json w); apply extends_refl. }
  intros signals. case_bool_decide; [apply frames_ret|].
  apply frames_bind; [apply get_embedding_frames|]. intros emb.
  apply frames_bind; [apply match_signals_frames|]. intros ms. apply frames_ret.
Qed.

(** X5.  Whatever it returns or raises, the e-mail operation leaves the
    signal file alone, never calls the embedding provider and makes at
    most one generation call. *)
Theorem generate_email_calls cfg desc (signal : Signal) x w :
  let w' := (generate_email ext cfg desc signal x w).2 in
  signals_json w' = signals_json w ∧
  (calls w' = calls w ∨ ∃ prompt, calls w' = calls w ++ [GenerateContent prompt]).
Proof.
  unfold generate_email. case_decide; [by split; [|left]|].
  unfold mbind, M_bind, lift, call, mret, M_ret. simpl.
  destruct (if truthy _ then _ else _) as [e|contact]; simpl; [by split; [|left]|].
  destruct (email_prompt ext desc contact signal x) as [e|prompt]; simpl;
    [by split; [|left]|].
  split.
  - by destruct (generate_content ext prompt) as [e|text]; simpl;
      [|destruct (getitem0 _)].
  - right. exists prompt.
    by destruct (generate_content ext prompt) as [e|text]; simpl;
      [|destruct (getitem0 _)].
Qed.
End Frames.

(** ** More on the match operation *)

Lemma generate_calls_app evs evs' :
  generate_calls (evs ++ evs') = generate_calls evs ++ generate_calls evs'.
Proof.
  induction evs as [|[t|p] evs IH]; simpl; [done|done|].
  by rewrite IH.
Qed.

Section MatchMore.
Context (ext : externals).
Implicit Types (cfg : config) (w : world) (r : list match_result).

Lemma generate_match_reasoning_prompt cfg desc s x w text w' :
  GEMINI_API_KEY cfg ≠ "" →
  generate_match_reasoning ext cfg desc s x w = (inr text, w') →
  ∃ prompt, reasoning_prompt ext desc s x = inr prompt ∧
            w' = log (GenerateContent prompt) w.
Proof.
  intros Hkey. unfold generate_match_reasoning. rewrite decide_False by done.
  unfold mbind, M_bind, lift, call, mret, M_ret.
  destruct (reasoning_prompt ext desc s x) as [e|prompt]; [done|].
  destruct (generate_content ext prompt); [done|].
  intros [= _ <-]. by exists prompt.
Qed.

(** The prompts the loop sends, one for each match it appends. *)
Lemma match_signals_prompts cfg desc emb signals matches w out w' :
  GEMINI_API_KEY cfg ≠ "" →
  match_signals ext cfg desc emb signals matches w = (inr out, w') →
  ∃ ms prompts,
    out = matches ++ ms ∧
    Forall2 (λ m p, reasoning_prompt ext desc (signal m) (score m) = inr p) ms prompts ∧
    generate_calls (calls w') = generate_calls (calls w) ++ prompts.
Proof.
  intros Hkey. revert matches w.
  induction signals as [|s signals IH]; intros matches w.
  { intros [= <- <-]. exists [], []. by rewrite !app_nil_r. }
  cbn [match_signals]. unfold mbind at 1, M_bind at 1.
  match goal with
  | |- context [(if negb ?b then ?m1 else ?m2) w] =>
      destruct ((if negb b then m1 else m2) w) as [[e|[s' v]] w1] eqn:H1; [done|]
  end.
  assert (generate_calls (calls w1) = generate_calls (calls w)) as Hw1.
  { destruct (negb _).
    - revert H1. unfold mbind, M_bind, get_embedding.
      rewrite decide_False by done. unfold call, mret, M_ret.
      destruct (embed_content ext _); intros [= <-]. subst.
      simpl. by rewrite generate_calls_app, app_nil_r.
    - unfold mret, M_ret in H1. by simplify_eq. }
  unfold mbind at 1, M_bind at 1, lift at 1.
  destruct (cosine_similarity ext _ _) as [e|sem]; [done|].
  unfold mbind at 1, M_bind at 1, lift at 1.
  destruct (joinable _) as [e|kws]; [done|].
  destruct (_ <=? _)%float.
  - unfold mbind at 1, M_bind at 1.
    destruct (generate_match_reasoning _ _ _ _ _ _) as [[e|text] w2] eqn:H2; [done|].
    apply generate_match_reasoning_prompt in H2 as (prompt & Hp & ->); [|done].
    intros (ms & prompts & -> & Hall & Hcalls)%IH.
    eexists (_ :: ms), (prompt :: prompts). split_and!.
    + by rewrite <- app_assoc.
    + by constructor.
    + rewrite Hcalls. simpl. rewrite generate_calls_app, Hw1. simpl.
      by rewrite <- app_assoc.
  - intros (ms & prompts & -> & Hall & Hcalls)%IH.
    exists ms, prompts. by rewrite Hcalls, Hw1.
Qed.

(** X6.  A successful match operation returns exactly [min 10 n] matches,
    [n] being the number of signals whose final score meets the threshold:
    nothing but the cut to ten drops a matching signal. *)
Theorem match_startup_length cfg desc w r w' emb :
  match_startup ext cfg desc w = (inr r, w') →
  embed_content ext desc = inr emb →
  length r =
    10 `min` length (filter (λ s, meets_threshold ext cfg desc emb s = true) (dataset w)).
Proof.
  intros [(Hd & -> & _)|(_ & _ & _ & _ & emb' & ms & Hemb & Hc & ->)]%match_startup_inv
    Hemb'.
  { rewrite Hd. simpl. lia. }
  assert (emb' = emb) as -> by congruence.
  by rewrite length_take, sort_desc_length, (collect_length _ _ _ _ _ _ Hc).
Qed.

(** X7.  The returned matches are the best ones: together with the matches
    that were cut they make up all matches that met the threshold, and no
    cut match has a strictly higher score than a returned one. *)
Theorem match_startup_best cfg desc w r w' emb ms :
  match_startup ext cfg desc w = (inr r, w') →
  embed_content ext desc = inr emb →
  collect ext cfg desc emb (dataset w) = inr ms →
  ∃ cut, r ++ cut ≡ₚ ms ∧
         ∀ m m', m ∈ r → m' ∈ cut → (score m <? score m')%float = false.
Proof.
  intros [(Hd & -> & _)|(_ & _ & _ & _ & emb' & ms' & Hemb & Hc & ->)]%match_startup_inv
    Hemb' Hms.
  { rewrite Hd in Hms. injection Hms as <-. exists []. split; [done|].
    intros ?? []%elem_of_nil. }
  assert (emb' = emb) as -> by congruence.
  assert (ms' = ms) as -> by congruence.
  destruct (collect_tagged _ _ _ _ _ _ Hc) as (tagged & -> & Htags & Hall).
  rewrite (sort_desc_fmap snd score tagged).
  set (sorted := sort_desc (λ b : nat * match_result, score b.2) tagged).
  assert (StronglySorted (ranked score) sorted) as Hsorted.
  { apply sort_desc_ranked; [|done].
    eapply Forall_impl; [exact Hall|].
    intros [p m] (s & _ & (_ & Hle & _)%included_inv); simpl in *.
    by eapply float_leb_comparable. }
  exists ((drop 10 sorted).*2). split.
  - rewrite <- fmap_take, <- fmap_app, take_drop.
    unfold sorted. by rewrite sort_desc_Permutation.
  - intros m m' Hm Hm'.
    rewrite <- fmap_take in Hm.
    apply list_elem_of_fmap in Hm as ([p x] & -> & Hx).
    apply list_elem_of_fmap in Hm' as ([p' x'] & -> & Hx').
    rewrite <- (take_drop 10 sorted) in Hsorted.
    by destruct (StronglySorted_app_1_elem_of _ _ _ _ _ Hsorted Hx Hx').
Qed.

(** X8.  A successful match operation asks the generation service for one
    reasoning per signal that met the threshold, in the order of the
    collection and before the cut to ten: as many generation calls as
    matching signals, not as returned matches. *)
Theorem match_startup_generation_calls cfg desc w r w' emb ms :
  match_startup ext cfg desc w = (inr r, w') →
  embed_content ext desc = inr emb →
  collect ext cfg desc emb (dataset w) = inr ms →
  ∃ prompts,
    Forall2 (λ m p, reasoning_prompt ext desc (signal m) (score m) = inr p) ms prompts ∧
    generate_calls (calls w') = generate_calls (calls w) ++ prompts.
Proof.
  intros Hrun Hemb Hms.
  pose proof Hrun as [(Hd & -> & ->)|(Hd & Hkey & _)]%match_startup_inv.
  { rewrite Hd in Hms. injection Hms as <-. exists []. by rewrite app_nil_r. }
  revert Hrun. unfold match_startup.
  unfold mbind at 1, M_bind at 1. rewrite load_signals_run.
  rewrite bool_decide_eq_false_2 by done.
  unfold mbind at 1, M_bind at 1. rewrite get_embedding_run.
  unfold embedding_answer. rewrite !decide_False by done. rewrite Hemb.
  unfold mbind at 1, M_bind at 1.
  destruct (match_signals _ _ _ _ _ _ _) as [[e|out] w1] eqn:Hloop; [done|].
  intros [= _ <-].
  pose proof (match_signals_collect ext cfg desc emb (dataset w) []
                (log (EmbedContent desc) w)) as Hc.
  rewrite Hloop, Hms in Hc. injection Hc as ->.
  apply match_signals_prompts in Hloop as (ms' & prompts & Hout & Hall & Hcalls);
    [|done].
  simpl in Hout. subst ms'. exists prompts. split; [done|].
  rewrite Hcalls. simpl. by rewrite generate_calls_app, app_nil_r.
Qed.

Lemma collect_first_failure cfg desc emb pre s post e :
  Forall (λ s', ∃ o, included ext cfg desc emb s' = inr o) pre →
  included ext cfg desc emb s = inl e →
  collect ext cfg desc emb (pre ++ s :: post) = inl e.
Proof.
  intros Hpre Hs. induction Hpre as [|s' pre [o Ho] _ IH]; simpl.
  - by rewrite Hs.
  - rewrite Ho. unfold mbind, exn_bind. by rewrite IH.
Qed.

(** X9.  There is no partial result: when scoring a signal (or generating
    its reasoning) raises and the signals before it went through, the
    match operation raises that exception, whatever the later signals
    are. *)
Theorem match_startup_first_failure cfg desc w emb pre s post e :
  GEMINI_API_KEY cfg ≠ "" →
  embed_content ext desc = inr emb →
  dataset w = pre ++ s :: post →
  Forall (λ s', ∃ o, included ext cfg desc emb s' = inr o) pre →
  included ext cfg desc emb s = inl e →
  (match_startup ext cfg desc w).1 = inl e.
Proof.
  intros Hkey Hemb Hd Hpre Hs. rewrite match_startup_result, Hd.
  rewrite bool_decide_eq_false_2 by by destruct pre.
  unfold embedding_answer. rewrite decide_False, Hemb by done.
  unfold mbind, exn_bind. by rewrite (collect_first_failure _ _ _ _ _ _ e).
Qed.

(** Every returned match is the match of a signal of the dataset. *)
Lemma match_startup_included cfg desc w r w' m :
  match_startup ext cfg desc w = (inr r, w') → m ∈ r →
  ∃ emb s, embed_content ext desc = inr emb ∧ s ∈ dataset w ∧
           included ext cfg desc emb s = inr (Some m).
Proof.
  intros [(_ & -> & _)|(_ & _ & _ & _ & emb & ms & Hemb & Hc & ->)]%match_startup_inv Hm.
  { by apply elem_of_nil in Hm. }
  apply elem_of_take in Hm as (i & Hm%list_elem_of_lookup_2 & _).
  rewrite sort_desc_Permutation in Hm.
  destruct (collect_included _ _ _ _ _ _ _ Hc Hm) as (s & Hs & Hinc).
  by exists emb, s.
Qed.

(** X10.  The signal of every returned match has an [embedding] field (so
    the response carries the vectors) and agrees with its signal of the
    dataset on every other field. *)
Theorem match_startup_signal_fields cfg desc w r w' m :
  match_startup ext cfg desc w = (inr r, w') → m ∈ r →
  ∃ s, s ∈ dataset w ∧
       is_Some (signal m !! "embedding") ∧
       ∀ k, k ≠ "embedding" → signal m !! k = s !! k.
Proof.
  intros Hrun Hm.
  destruct (match_startup_included _ _ _ _ _ _ Hrun Hm) as (emb & s & _ & Hs & Hinc).
  apply included_inv in Hinc as (Hsc & _ & _).
  apply scored_inv in Hsc as (v & _ & _ & Hwe & _ & _ & _).
  exists s. split; [done|].
  apply with_embedding_inv in Hwe as [(Hc & -> & _)|(_ & e & _ & -> & _)].
  - split; [|done]. unfold uncached, get in Hc.
    destruct (s !! "embedding"); [by eexists|done].
  - split; [by rewrite lookup_insert_eq|].
    intros k Hk. by rewrite lookup_insert_ne.
Qed.

(** X11.  The reasoning of every returned match has no whitespace at
    either end. *)
Theorem match_startup_reasoning_stripped cfg desc w r w' m :
  match_startup ext cfg desc w = (inr r, w') → m ∈ r →
  lstrip (reasoning m) = reasoning m ∧ rstrip (reasoning m) = reasoning m.
Proof.
  intros Hrun Hm.
  destruct (match_startup_included _ _ _ _ _ _ Hrun Hm) as (emb & s & _ & _ & Hinc).
  apply included_inv in Hinc as (_ & _ & Hr).
  unfold reasoning_answer in Hr. case_decide.
  { injection Hr as <-. done. }
  unfold mbind, exn_bind, mret, exn_ret in Hr.
  destruct (reasoning_prompt _ _ _ _) as [|p]; [done|].
  destruct (generate_content ext p) as [|text]; [done|].
  injection Hr as <-. apply strip_stripped.
Qed.


(** X13.  With a key, a prompt and a generated text, the e-mail operation
    returns a draft after exactly one generation call: [to] is the first
    entry of a non-empty [stakeholders] list, and 'City Official' when the
    signal has no [stakeholders] field; the body is the generated text
    without whitespace at its ends. *)
Theorem generate_email_draft cfg desc (signal : Signal) x w contact prompt text :
  GEMINI_API_KEY cfg ≠ "" →
  (∃ rest, signal !! "stakeholders" = Some (VList (contact :: rest))) ∨
  (signal !! "stakeholders" = None ∧ contact = VStr "City Official") →
  email_prompt ext desc contact signal x = inr prompt →
  generate_content ext prompt = inr text →
  generate_email ext cfg desc signal x w =
    (inr {| subject := "Re: " +:+ str_of ext (get signal "title" (VStr "Opportunity"))
                       +:+ " - Partnership Opportunity";
            to := contact;
            body := strip text;
            preview_note := "This is a preview. Review and customize before sending." |},
     log (GenerateContent prompt) w).
Proof.
  intros Hkey Hs Hp Ht. unfold generate_email, get.
  rewrite decide_False by done.
  unfold mbind, M_bind, lift, call, mret, M_ret.
  destruct Hs as [[rest ->]|[-> ->]]; simpl; by rewrite Hp, Ht.
Qed.

(** X14.  A [stakeholders] field that is present but falsy ([null], an
    empty list, string or object, zero, [false]) is treated as missing by
    the prompt only: the e-mail operation never returns a draft for such a
    signal. *)
Theorem generate_email_falsy_stakeholders cfg desc (signal : Signal) x w v :
  signal !! "stakeholders" = Some v → truthy v = false →
  ∀ draft w', generate_email ext cfg desc signal x w ≠ (inr draft, w').
Proof.
  intros Hs Hv draft w'. unfold generate_email, get. rewrite Hs, Hv.
  case_decide; [done|].
  unfold mbind, M_bind, lift, call, mret, M_ret.
  destruct (email_prompt _ _ _ _ _) as [|p]; [done|].
  destruct (generate_content ext p); [done|].
  assert (∃ e, getitem0 v = inl e) as [e ->]; [|done].
  destruct v as [|[]|n|f|[|c t]|[|y l]|[|y d]]; simpl in Hv |- *; eauto; done.
Qed.
End MatchMore.

Lemma SFleb_comparable_l a b : SFleb a b = true → SFeqb a a = true.
Proof. sf_compare. Qed.

Lemma float_leb_comparable_l x y : (x <=? y)%float = true → comparable x.
Proof.
  unfold comparable. rewrite FloatAxioms.leb_spec, FloatAxioms.eqb_spec.
  apply SFleb_comparable_l.
Qed.

(** X15.  A signal whose final score is NaN is dropped without an
    exception, and so is every signal when the threshold is NaN: the
    comparison [final_score >= MIN_MATCH_SCORE] is then false. *)
Theorem included_nan ext cfg desc emb (s s' : Signal) x :
  scored ext cfg desc emb s = inr (s', x) →
  (x =? x)%float = false ∨ (MIN_MATCH_SCORE cfg =? MIN_MATCH_SCORE cfg)%float = false →
  included ext cfg desc emb s = inr None.
Proof.
  intros Hs Hnan. unfold included. rewrite Hs. unfold mbind, exn_bind.
  destruct (MIN_MATCH_SCORE cfg <=? x)%float eqn:Hle; [|done].
  destruct Hnan as [Hx|Ht].
  - apply float_leb_comparable in Hle. unfold comparable in Hle. congruence.
  - apply float_leb_comparable_l in Hle. unfold comparable in Hle. congruence.
Qed.

(** * The further properties on concrete requests *)

Lemma calculate_keyword_overlap_order_witness :
  calculate_keyword_overlap "Foo Bar" ["bar"; "foo"] =
    calculate_keyword_overlap "Foo Bar" ["foo"; "bar"].
Proof.
  apply (proj1 (calculate_keyword_overlap_order "Foo Bar" ["bar"; "foo"] ["foo"; "bar"])).
  apply perm_swap.
Defined.

Lemma calculate_keyword_overlap_extremes_witness :
  calculate_keyword_overlap "We build an AI procurement assistant" ["AI"; "procurement"] =
    1%float ∧
  calculate_keyword_overlap "We build an AI procurement assistant" ["drones"; "lidar"] =
    0%float.
Proof.
  split.
  - apply (calculate_keyword_overlap_extremes
             "We build an AI procurement assistant" ["AI"; "procurement"]).
    + discriminate.
    + reflexivity.
    + apply Forall_forall, (bool_decide_unpack _). vm_compute. exact I.
  - apply (calculate_keyword_overlap_extremes
             "We build an AI procurement assistant" ["drones"; "lidar"]).
    + discriminate.
    + reflexivity.
    + apply Forall_forall, (bool_decide_unpack _). vm_compute. exact I.
Defined.

Lemma match_startup_length_witness :
  length crowd_matches =
    10 `min` length (filter (λ s, meets_threshold stub (default_config "key")
                                    "We build AI" sample_embedding s = true)
                       (dataset (sample_world crowd_signals))).
Proof.
  apply (match_startup_length stub (default_config "key") "We build AI"
           (sample_world crowd_signals) crowd_matches crowd_after sample_embedding).
  - vm_compute. reflexivity.
  - reflexivity.
Defined.

Lemma match_startup_best_witness :
  ∃ cut, crowd_matches ++ cut ≡ₚ crowd_collected ∧
         ∀ m m', m ∈ crowd_matches → m' ∈ cut → (score m <? score m')%float = false.
Proof.
  apply (match_startup_best stub (default_config "key") "We build AI"
           (sample_world crowd_signals) crowd_matches crowd_after
           sample_embedding crowd_collected).
  - vm_compute. reflexivity.
  - reflexivity.
  - vm_compute. reflexivity.
Defined.

Lemma match_startup_generation_calls_witness :
  ∃ prompts,
    Forall2 (λ m p, reasoning_prompt stub "We build AI" (signal m) (score m) = inr p)
      crowd_collected prompts ∧
    generate_calls (calls crowd_after) =
      generate_calls (calls (sample_world crowd_signals)) ++ prompts.
Proof.
  apply (match_startup_generation_calls stub (default_config "key") "We build AI"
           (sample_world crowd_signals) crowd_matches crowd_after
           sample_embedding crowd_collected).
  - vm_compute. reflexivity.
  - reflexivity.
  - vm_compute. reflexivity.
Defined.

Lemma match_startup_first_failure_witness :
  (match_startup stub (default_config "key") "We build AI"
     (sample_world (sample_signals ++ broken_signal :: sample_signals))).1 = inl TypeError.
Proof.
  apply (match_startup_first_failure stub (default_config "key") "We build AI"
           (sample_world (sample_signals ++ broken_signal :: sample_signals))
           sample_embedding sample_signals broken_signal sample_signals TypeError).
  - discriminate.
  - reflexivity.
  - reflexivity.
  - repeat constructor; eexists; vm_compute; reflexivity.
  - vm_compute. reflexivity.
Defined.

Lemma match_startup_signal_fields_witness :
  Forall (λ m, ∃ s, s ∈ dataset (sample_world cold_signals) ∧
                    is_Some (signal m !! "embedding") ∧
                    ∀ k, k ≠ "embedding" → signal m !! k = s !! k)
    cold_matches.
Proof.
  apply Forall_forall. intros m.
  apply (match_startup_signal_fields stub (default_config "key") "drones"
           (sample_world cold_signals) cold_matches cold_after m).
  vm_compute. reflexivity.
Defined.

Lemma match_startup_reasoning_stripped_witness :
  Forall (λ m, lstrip (reasoning m) = reasoning m ∧ rstrip (reasoning m) = reasoning m)
    sample_matches.
Proof.
  apply Forall_forall. intros m.
  apply (match_startup_reasoning_stripped stub (default_config "key") "We build AI"
           (sample_world sample_signals) sample_matches sample_after m).
  vm_compute. reflexivity.
Defined.


Lemma generate_email_draft_witness :
  generate_email stub (default_config "key") "We build AI" lighting_signal 0x1.8p-1
    (sample_world []) =
  (inr {| subject := "Re: Smart lighting - Partnership Opportunity";
          to := VStr "Public Works Director";
          body := "because write to Public Works Director";
          preview_note := "This is a preview. Review and customize before sending." |},
   log (GenerateContent "write to Public Works Director") (sample_world [])).
Proof.
  apply (generate_email_draft stub (default_config "key") "We build AI" lighting_signal
           0x1.8p-1 (sample_world []) (VStr "Public Works Director")
           "write to Public Works Director" " because write to Public Works Director ").
  - discriminate.
  - left. eexists. vm_compute. reflexivity.
  - reflexivity.
  - reflexivity.
Defined.

Lemma generate_email_falsy_stakeholders_witness :
  generate_email stub (default_config "key") "We build AI"
    {[ "stakeholders" := VNone ]} 0x1.8p-1 (sample_world []) ≠
  (inr {| subject := "Re: Opportunity - Partnership Opportunity";
          to := VStr "City Official";
          body := "because write to City Official";
          preview_note := "This is a preview. Review and customize before sending." |},
   log (GenerateContent "write to City Official") (sample_world [])).
Proof.
  apply (generate_email_falsy_stakeholders stub (default_config "key") "We build AI"
           {[ "stakeholders" := VNone ]} 0x1.8p-1 (sample_world []) VNone).
  - vm_compute. reflexivity.
  - reflexivity.
Defined.

Lemma included_nan_witness :
  included stub (default_config "key") "We build AI" sample_embedding
    (sample_signal "void" nan []) = inr None.
Proof.
  apply (included_nan stub (default_config "key") "We build AI" sample_embedding
           (sample_signal "void" nan []) (sample_signal "void" nan []) nan).
  - vm_compute. reflexivity.
  - left. reflexivity.
Defined.
